(** * imap.go: the incremental response parser and the client operations

    A shallow embedding of [src/imap.go].  Go's [[]byte] and [string] are both
    finite byte sequences and every conversion between them in the source
    copies the bytes, so both are modelled by [list ascii]; [int] is the
    64-bit signed integer of the usual targets, kept in [Z] with its
    wrap-around written out.  Methods of a Go type live in a module named
    after the type. *)

From Stdlib Require Import List ZArith Ascii String Bool Lia.
From Stdlib Require DecimalString DecimalN DecimalFacts.
Import ListNotations.

Local Open Scope Z_scope.
Local Open Scope list_scope.

(** ** Bytes, strings, errors, panics *)

Abbreviation byte := ascii (only parsing).
Abbreviation bytes := (list ascii) (only parsing).

(** A Go string or byte-slice literal without escapes. *)
Definition lit (s : string) : bytes := list_ascii_of_string s.

Definition CR : byte := "013"%char.
Definition LF : byte := "010"%char.
Definition TAB : byte := "009"%char.
Definition SP : byte := " "%char.
Definition CRLF : bytes := [CR; LF].

(** [len] of a slice or string, an [int]. *)
Definition len {A} (s : list A) : Z := Z.of_nat (List.length s).
Arguments len : simpl never.

(** [errors.New]: an error value is known by its message. *)
Inductive error : Type := errorString (s : bytes).

(** A call either returns or panics (slice or index out of range). *)
Inductive outcome (A : Type) : Type :=
| Return (a : A)
| Panic (msg : string).
Arguments Return {A} a.
Arguments Panic {A} msg.

Definition bind {A B} (m : outcome A) (k : A -> outcome B) : outcome B :=
  match m with
  | Return a => k a
  | Panic msg => Panic msg
  end.

Notation "x <- m ;; k" := (bind m (fun x => k))
  (at level 61, m at next level, right associativity).

(** [s[lo:]]; panics unless [0 <= lo <= len(s)]. *)
Definition sliceFrom (s : bytes) (lo : Z) : outcome bytes :=
  if (0 <=? lo) && (lo <=? len s)
  then Return (skipn (Z.to_nat lo) s)
  else Panic "slice bounds out of range".

(** [s[0]] on a slice. *)
Definition index0 {A} (s : list A) : outcome A :=
  match s with
  | x :: _ => Return x
  | [] => Panic "index out of range [0] with length 0"
  end.

Fixpoint bytes_eqb (a b : bytes) : bool :=
  match a, b with
  | [], [] => true
  | x :: a', y :: b' => Ascii.eqb x y && bytes_eqb a' b'
  | _, _ => false
  end.

(** ** The pieces of the Go library the source calls *)

Definition maxInt : Z := 2 ^ 63 - 1.
Definition minInt : Z := - 2 ^ 63.

(** [int] arithmetic wraps around. *)
Definition wrapInt (z : Z) : Z := (z - minInt) mod 2 ^ 64 + minInt.

Definition isDigit (c : byte) : bool :=
  Ascii.leb "0" c && Ascii.leb c "9".

Definition digitVal (c : byte) : Z := Z.of_N (N_of_ascii c) - 48.

Fixpoint parseDigits (acc : Z) (s : bytes) : option Z :=
  match s with
  | [] => Some acc
  | c :: s' =>
      if isDigit c then parseDigits (10 * acc + digitVal c) s' else None
  end.

(** [strconv.Atoi]: an optional sign, then one or more decimal digits, the
    value within [int]; [None] stands for a non-nil error (the source never
    looks at the number returned with an error). *)
Definition Atoi (s : bytes) : option Z :=
  let '(neg, ds) :=
    match s with
    | c :: t =>
        if Ascii.eqb c "-" then (true, t)
        else if Ascii.eqb c "+" then (false, t)
        else (false, s)
    | [] => (false, s)
    end in
  match ds with
  | [] => None
  | _ :: _ =>
      match parseDigits 0 ds with
      | None => None
      | Some n =>
          let v := if neg then - n else n in
          if (minInt <=? v) && (v <=? maxInt) then Some v else None
      end
  end.

(** The first [sep] of [s]: what is before it and what is after it. *)
Fixpoint cut (sep : byte) (s : bytes) : option (bytes * bytes) :=
  match s with
  | [] => None
  | c :: s' =>
      if Ascii.eqb c sep then Some ([], s')
      else match cut sep s' with
           | Some (a, b) => Some (c :: a, b)
           | None => None
           end
  end.

Fixpoint splitAtMost (k : nat) (sep : byte) (s : bytes) : list bytes :=
  match k with
  | O => [s]
  | S k' =>
      match cut sep s with
      | Some (a, b) => a :: splitAtMost k' sep b
      | None => [s]
      end
  end.

(** [strings.Split(s, sep)] for a one-byte separator (the source only passes
    the one-byte string of a space). *)
Fixpoint Split (s : bytes) (sep : byte) : list bytes :=
  match s with
  | [] => [[]]
  | c :: s' =>
      if Ascii.eqb c sep then [] :: Split s' sep
      else match Split s' sep with
           | p :: ps => (c :: p) :: ps
           | [] => [[c]]
           end
  end.

(** [strings.SplitN(s, sep, n)] for a one-byte separator: no piece for
    [n = 0], every piece for [n < 0], at most [n] pieces otherwise, the last
    one being the unsplit remainder. *)
Definition SplitN (s : bytes) (sep : byte) (n : Z) : list bytes :=
  if n =? 0 then []
  else if n <? 0 then Split s sep
  else splitAtMost (Z.to_nat (n - 1)) sep s.

(** [strings.Index(s, substr)] for a one-byte [substr]: the first position
    of the byte, or -1. *)
Fixpoint Index (s : bytes) (c : byte) : Z :=
  match s with
  | [] => -1
  | x :: s' =>
      if Ascii.eqb x c then 0
      else let i := Index s' c in if i <? 0 then -1 else i + 1
  end.

Definition inCutset (cutset : bytes) (c : byte) : bool :=
  existsb (Ascii.eqb c) cutset.

Fixpoint TrimLeft (s cutset : bytes) : bytes :=
  match s with
  | [] => []
  | c :: s' => if inCutset cutset c then TrimLeft s' cutset else s
  end.

Definition TrimRight (s cutset : bytes) : bytes :=
  rev (TrimLeft (rev s) cutset).

(** [strings.Trim(s, cutset)] for an ASCII cutset: works on bytes. *)
Definition Trim (s cutset : bytes) : bytes :=
  TrimRight (TrimLeft s cutset) cutset.

Definition upperByte (c : byte) : byte :=
  if Ascii.leb "a" c && Ascii.leb c "z"
  then ascii_of_N (N_of_ascii c - 32)
  else c.

(** [strings.ToUpper] on the bytes of the string.  This is Go's result for
    ASCII input.  A string with a byte above 127 is left with that byte,
    where Go maps runes; the source only compares the result of a slice of
    fixed byte length with an ASCII word of that length, and neither Go's
    result nor this one can equal it for such a string. *)
Definition ToUpper (s : bytes) : bytes := map upperByte s.

(** Decimal digits of a natural number, as [strconv] prints them. *)
Definition decimal (n : N) : bytes :=
  lit (DecimalString.NilEmpty.string_of_uint (N.to_uint n)).

Definition padZero (width : nat) (ds : bytes) : bytes :=
  repeat "0"%char (width - List.length ds)%nat ++ ds.

(** [fmt.Sprintf("%03d", z)]: zero-padded to three columns, the sign taking
    one of them. *)
Definition fmt03d (z : Z) : bytes :=
  if z <? 0
  then "-"%char :: padZero 2 (decimal (Z.to_N (- z)))
  else padZero 3 (decimal (Z.to_N z)).

(** ** Constants *)

Definition RFC822Header : bytes := lit "rfc822.header".
Definition RFC822Text : bytes := lit "rfc822.text".
Definition Seen : bytes := lit "\Seen".
Definition Deleted : bytes := lit "\Deleted".
Definition Inbox : bytes := lit "INBOX".

(** ** [type reply] *)

Module reply.

(** The field [length] of the source is [length_] here. *)
Record t : Type := mk {
  origin : bytes;
  type_ : bytes;
  length_ : bytes;
  content : bytes
}.

Definition newReply : t :=
  {| origin := []; type_ := []; length_ := []; content := [] |}.

Definition addOrigin (i : byte) (r : t) : t :=
  {| origin := origin r ++ [i]; type_ := type_ r;
     length_ := length_ r; content := content r |}.

Definition addType (i : byte) (r : t) : t :=
  {| origin := origin r; type_ := type_ r ++ [i];
     length_ := length_ r; content := content r |}.

Definition addLength (i : byte) (r : t) : t :=
  {| origin := origin r; type_ := type_ r;
     length_ := length_ r ++ [i]; content := content r |}.

Definition addContent (i : byte) (r : t) : t :=
  {| origin := origin r; type_ := type_ r;
     length_ := length_ r; content := content r ++ [i] |}.

Definition Origin (r : t) : bytes := origin r.
Definition Type_ (r : t) : bytes := type_ r.
Definition Length (r : t) : option Z := Atoi (length_ r).
Definition Content (r : t) : bytes := content r.

End reply.

(** ** [type feedStatus] *)

Inductive feedStatus : Type :=
| feedInit
| feedStar
| feedReply
| feedReplyType
| feedReplyLength
| feedReplyContent
| feedReplyMeet0d
| feedStatusLine
| feedStatusLineMeet0d
| feedFinished.

(** ** [type Response] *)

Module Response.

(** The field [feedStatus] of the source is [state] here, and the field
    [reply] is [cur]. *)
Record t : Type := mk {
  id : bytes;
  status : bytes;
  err : option error;
  replys : list reply.t;
  buf : bytes;
  state : feedStatus;
  parenthesisCount : Z;
  cur : reply.t
}.

Definition NewResponse : t :=
  {| id := []; status := []; err := None; replys := [];
     buf := []; state := feedInit; parenthesisCount := 0;
     cur := reply.mk [] [] [] [] |}.

Definition setState (s : feedStatus) (r : t) : t :=
  mk (id r) (status r) (err r) (replys r) (buf r) s
     (parenthesisCount r) (cur r).

Definition setBuf (b : bytes) (r : t) : t :=
  mk (id r) (status r) (err r) (replys r) b (state r)
     (parenthesisCount r) (cur r).

Definition setCur (c : reply.t) (r : t) : t :=
  mk (id r) (status r) (err r) (replys r) (buf r) (state r)
     (parenthesisCount r) c.

Definition setReplys (l : list reply.t) (r : t) : t :=
  mk (id r) (status r) (err r) l (buf r) (state r)
     (parenthesisCount r) (cur r).

Definition setId (s : bytes) (r : t) : t :=
  mk s (status r) (err r) (replys r) (buf r) (state r)
     (parenthesisCount r) (cur r).

Definition setStatus (s : bytes) (r : t) : t :=
  mk (id r) s (err r) (replys r) (buf r) (state r)
     (parenthesisCount r) (cur r).

Definition setErr (e : option error) (r : t) : t :=
  mk (id r) (status r) e (replys r) (buf r) (state r)
     (parenthesisCount r) (cur r).

(** The three steps of the status line's end: [id] and [status] from the
    pieces of the line, and [err] unless the status starts with the three
    bytes of OK and a space. *)
Definition finish (r : t) : t :=
  let r := setState feedFinished r in
  let array := SplitN (buf r) SP 2 in
  let r := match array with
           | a0 :: _ => setId a0 r
           | [] => r
           end in
  let r := match array with
           | _ :: a1 :: _ => setStatus a1 r
           | _ => r
           end in
  if (len (status r) <? 3)
     || negb (bytes_eqb (firstn 3 (status r)) (lit "OK "))
  then setErr (Some (errorString (status r))) r
  else r.

(** The body of the loop of [Feed] for one byte [i]: the new state, and
    the values returned when the body returns from [Feed]. *)
Definition feedByte (r : t) (i : byte)
  : t * option (bool * option error) :=
  match state r with
  | feedInit =>
      if Ascii.eqb i "*"
      then (setState feedStar r, None)
      else (setBuf (buf r ++ [i]) (setState feedStatusLine r), None)
  | feedStar =>
      if negb (Ascii.eqb i SP)
      then (setCur (reply.addOrigin i reply.newReply)
              (setState feedReply r), None)
      else (r, None)
  | feedReply =>
      if Ascii.eqb i CR
      then (setState feedReplyMeet0d r, None)
      else if Ascii.eqb i "("
      then (setCur (reply.addOrigin i (cur r))
              (setState feedReplyType r), None)
      else (setCur (reply.addOrigin i (cur r)) r, None)
  | feedReplyType =>
      let r :=
        if Ascii.eqb i ")"
        then setState feedReply r
        else if Ascii.eqb i SP
        then (if 0 <? len (reply.type_ (cur r))
              then setState feedReplyLength r
              else r)
        else setCur (reply.addType i (cur r)) r in
      (setCur (reply.addOrigin i (cur r)) r, None)
  | feedReplyLength =>
      let r := setCur (reply.addOrigin i (cur r)) r in
      let r := if Ascii.eqb i LF then setState feedReplyContent r else r in
      let r := if isDigit i
               then setCur (reply.addLength i (cur r)) r
               else r in
      (r, None)
  | feedReplyContent =>
      let r := setCur (reply.addOrigin i (cur r)) r in
      let r := setCur (reply.addContent i (cur r)) r in
      match reply.Length (cur r) with
      | None =>
          (r, Some (false, Some (errorString (lit
             "Parse response error, reply need a valid length number"))))
      | Some n =>
          if len (reply.content (cur r)) =? n
          then (setState feedReply r, None)
          else (r, None)
      end
  | feedReplyMeet0d =>
      if Ascii.eqb i LF
      then (setBuf [] (setReplys (replys r ++ [cur r])
              (setState feedInit r)), None)
      else (setCur (reply.addOrigin i (cur r))
              (setState feedReply r), None)
  | feedStatusLine =>
      if Ascii.eqb i CR
      then (setState feedStatusLineMeet0d r, None)
      else (setBuf (buf r ++ [i]) r, None)
  | feedStatusLineMeet0d =>
      if Ascii.eqb i LF
      then (finish r, Some (true, None))
      else (setBuf (buf r ++ [CR; i]) (setState feedStatusLine r), None)
  | feedFinished =>
      (r, Some (true, Some (errorString (lit "Need no more feed"))))
  end.

(** [Feed]: the bytes of [input] in order, until the body returns. *)
Fixpoint Feed (r : t) (input : bytes) : t * (bool * option error) :=
  match input with
  | [] => (r, (false, None))
  | i :: rest =>
      match feedByte r i with
      | (r', Some ret) => (r', ret)
      | (r', None) => Feed r' rest
      end
  end.

Definition Id (r : t) : bytes := id r.
Definition Status (r : t) : bytes := status r.
Definition Error (r : t) : option error := err r.
Definition Replys (r : t) : list reply.t := replys r.

End Response.

(** ** The transport

    What the client sees of its [*tls.Conn]: the results of the successive
    calls of [Read] (the bytes left in the buffer, or an error) and of
    [Write], and the payloads handed to [Write], oldest first.  A script
    that has run out reads as end of file and writes without error. *)

Module conn.

Record t : Type := mk {
  incoming : list (bytes + error);
  outcomes : list (option error);
  sent : list bytes
}.

Definition EOF : error := errorString (lit "EOF").

Definition Write (c : t) (p : bytes) : t * option error :=
  match outcomes c with
  | [] => (mk (incoming c) [] (sent c ++ [p]), None)
  | e :: rest => (mk (incoming c) rest (sent c ++ [p]), e)
  end.

Definition Read (c : t) : t * (bytes + error) :=
  match incoming c with
  | [] => (c, inr EOF)
  | x :: rest => (mk rest (outcomes c) (sent c), x)
  end.

Definition Close (c : t) : option error := None.

End conn.

(** ** [type IMAPClient] *)

Module IMAPClient.

Record t : Type := mk {
  conn_ : conn.t;
  count : Z;
  buf : bytes
}.

(** What a [Read] of [chunk] leaves in the buffer [b]. *)
Definition readInto (b chunk : bytes) : bytes :=
  chunk ++ skipn (List.length chunk) b.

(** The loop of [NewClient] over the greeting: read until a chunk holds a
    line feed; [None] when a read fails first. *)
Fixpoint greeting (rs : list (bytes + error)) (b : bytes)
  : option (list (bytes + error) * bytes) :=
  match rs with
  | [] => None
  | inr _ :: _ => None
  | inl chunk :: rs' =>
      if existsb (fun i => Ascii.eqb i LF) chunk
      then Some (rs', readInto b chunk)
      else greeting rs' (readInto b chunk)
  end.

Definition NewClient (c : conn.t) : option t :=
  match greeting (conn.incoming c) (repeat zero 1024) with
  | Some (rs, b) =>
      Some (mk (conn.mk rs (conn.outcomes c) (conn.sent c)) 0 b)
  | None => None
  end.

Definition Close (c : t) : option error := conn.Close (conn_ c).

(** The tag of the command numbered [n]. *)
Definition tag (n : Z) : bytes := "a"%char :: fmt03d n.

(** [fmt.Sprintf("a%03d %s\r\n", n, cmd)]. *)
Definition commandLine (n : Z) (cmd : bytes) : bytes :=
  tag n ++ [SP] ++ cmd ++ CRLF.

(** The read loop of [Do]: one [Read] and one [Feed] per turn, until an
    error or the end of the response. *)
Fixpoint pump (rs : list (bytes + error)) (b : bytes) (ret : Response.t)
  : list (bytes + error) * bytes * Response.t :=
  match rs with
  | [] => ([], b, Response.setErr (Some conn.EOF) ret)
  | inr e :: rs' => (rs', b, Response.setErr (Some e) ret)
  | inl chunk :: rs' =>
      let b' := readInto b chunk in
      match Response.Feed ret chunk with
      | (ret', (_, Some e)) => (rs', b', Response.setErr (Some e) ret')
      | (ret', (true, None)) => (rs', b', ret')
      | (ret', (false, None)) => pump rs' b' ret'
      end
  end.

Definition Do (c : t) (cmd : bytes) : t * Response.t :=
  let n := wrapInt (count c + 1) in
  let ret := Response.NewResponse in
  let '(k, e) := conn.Write (conn_ c) (commandLine n cmd) in
  match e with
  | Some e => (mk k n (buf c), Response.setErr (Some e) ret)
  | None =>
      let '(rs, b, ret') := pump (conn.incoming k) (buf c) ret in
      (mk (conn.mk rs (conn.outcomes k) (conn.sent k)) n b, ret')
  end.

Definition Login (c : t) (user password : bytes) : t * option error :=
  let '(c', resp) := Do c (lit "LOGIN " ++ user ++ [SP] ++ password) in
  (c', Response.err resp).

Definition Select (c : t) (box : bytes) : t * Response.t :=
  Do c (lit "SELECT " ++ box).

(** The loop of [Search] over the replies. *)
Fixpoint searchReplys (l : list reply.t) : list bytes * option error :=
  match l with
  | [] => ([], Some (errorString (lit "Invalid response")))
  | r :: l' =>
      let org := reply.Origin r in
      if (6 <=? len org) && bytes_eqb (ToUpper (firstn 6 org)) (lit "SEARCH")
      then
        let ids := Trim (skipn 6 org) [SP; TAB; LF; CR] in
        if bytes_eqb ids [] then ([], None)
        else (Split ids SP, None)
      else searchReplys l'
  end.

Definition Search (c : t) (flag : bytes)
  : t * (list bytes * option error) :=
  let '(c', resp) := Do c (lit "SEARCH " ++ flag) in
  match Response.Error resp with
  | Some e => (c', ([], Some e))
  | None => (c', searchReplys (Response.Replys resp))
  end.

(** The loop of [Fetch] over the replies. *)
Fixpoint fetchReplys (id : bytes) (l : list reply.t)
  : outcome (bytes * option error) :=
  match l with
  | [] => Return ([], Some (errorString (lit "Invalid response")))
  | r :: l' =>
      let org := reply.Origin r in
      if (len org <? len id)
         || negb (bytes_eqb (firstn (List.length id) org) id)
      then fetchReplys id l'
      else
        org <- sliceFrom org (len id + 1) ;;
        if (5 <=? len org) && bytes_eqb (ToUpper (firstn 5 org)) (lit "FETCH")
        then
          let body := reply.Content r in
          let i := Index body LF in
          body' <- sliceFrom body (i + 1) ;;
          Return (body', None)
        else fetchReplys id l'
  end.

Definition Fetch (c : t) (id arg : bytes)
  : outcome (t * (bytes * option error)) :=
  let '(c', resp) := Do c (lit "FETCH " ++ id ++ [SP] ++ arg) in
  match Response.Error resp with
  | Some e => Return (c', ([], Some e))
  | None =>
      res <- fetchReplys id (Response.Replys resp) ;;
      Return (c', res)
  end.

Definition StoreFlag (c : t) (id flag : bytes) : t * option error :=
  let '(c', resp) := Do c (lit "STORE " ++ id ++ lit " FLAGS " ++ flag) in
  (c', Response.Error resp).

Definition Logout (c : t) : t * option error :=
  let '(c', resp) := Do c (lit "LOGOUT") in
  (c', Response.Error resp).

(** [GetMessage], over the reader of MIME headers of [net/textproto],
    which is not part of this program. *)
Section GetMessage.

Variable MIMEHeader : Type.
Variable ReadMIMEHeader : bytes -> MIMEHeader + error.

Record Message : Type := mkMessage {
  Header : MIMEHeader;
  Body : bytes
}.

Definition GetMessage (c : t) (id : bytes)
  : outcome (t * (option Message * option error)) :=
  let '(c1, headerResp) :=
    Do c (lit "FETCH " ++ id ++ [SP] ++ RFC822Header) in
  match Response.Error headerResp with
  | Some e => Return (c1, (None, Some e))
  | None =>
      let replys := Response.Replys headerResp in
      r0 <- index0 replys ;;
      match ReadMIMEHeader (reply.content r0) with
      | inr e => Return (c1, (None, Some e))
      | inl header =>
          let '(c2, bodyResp) :=
            Do c1 (lit "FETCH " ++ id ++ [SP] ++ RFC822Text) in
          match Response.Error bodyResp with
          | Some e => Return (c2, (None, Some e))
          | None =>
              b0 <- index0 (Response.Replys bodyResp) ;;
              Return (c2, (Some (mkMessage header (reply.content b0)),
                           None))
          end
      end
  end.

End GetMessage.

End IMAPClient.

(** ** Runs, invariants and sample data used in the statements *)

(** Chunks fed one after the other, whatever each call returns. *)
Fixpoint FeedAll (r : Response.t) (chunks : list bytes) : Response.t :=
  match chunks with
  | [] => r
  | c :: cs => FeedAll (fst (Response.Feed r c)) cs
  end.

(** The responses a caller of [Feed] can hold. *)
Inductive reachable : Response.t -> Prop :=
| reach_new : reachable Response.NewResponse
| reach_feed r input :
    reachable r -> reachable (fst (Response.Feed r input)).

(** The leading token of a status text, in the words of the specification:
    what comes before its first space. *)
Definition leadingToken (s : bytes) : bytes :=
  match cut SP s with
  | Some (a, _) => a
  | None => s
  end.

(** The response of the third scenario of the specification, as six reads
    may cut it, and the Response it leaves. *)
Definition fetch_chunks : list bytes :=
  [lit "* 4 FETCH (RFC822.TEXT {5"; lit "}" ++ [CR];
   LF :: lit "he"; lit "llo)" ++ CRLF ++ lit "a003 O";
   lit "K done" ++ [CR]; [LF]].

Definition fetch_response : Response.t :=
  Eval vm_compute in
    fst (Response.Feed Response.NewResponse (List.concat fetch_chunks)).

(** The commands of a session, one after the other, whatever the
    responses are. *)
Fixpoint DoAll (c : IMAPClient.t) (cmds : list bytes) : IMAPClient.t :=
  match cmds with
  | [] => c
  | cmd :: rest => DoAll (fst (IMAPClient.Do c cmd)) rest
  end.

(** The lines of the commands [cmds] when the first one is numbered [n]. *)
Fixpoint commandLines (n : Z) (cmds : list bytes) : list bytes :=
  match cmds with
  | [] => []
  | cmd :: rest => IMAPClient.commandLine n cmd :: commandLines (n + 1) rest
  end.

(** The number a tag stands for: the decimal value of what follows its
    first letter. *)
Definition tagNumber (t : bytes) : option Z :=
  match t with
  | c :: ds => if Ascii.eqb c "a" then parseDigits 0 ds else None
  | [] => None
  end.

(** [strings.Join] for a one-byte separator: what a space-separated list
    of identifiers is. *)
Fixpoint Join (ps : list bytes) (sep : byte) : bytes :=
  match ps with
  | [] => []
  | [p] => p
  | p :: ps' => p ++ sep :: Join ps' sep
  end.

(** The bytes that [Search] trims. *)
Definition whitespace : bytes := [SP; TAB; LF; CR].

(** An identifier: one byte at least, none of them trimmed. *)
Definition identifier (x : bytes) : Prop :=
  x <> [] /\ Forall (fun c => inCutset whitespace c = false) x.

(** The test of [Search] and [Fetch] on a keyword: the origin starts with
    it, letter case apart. *)
Definition carries (kw org : bytes) : bool :=
  (len kw <=? len org)
  && bytes_eqb (ToUpper (firstn (List.length kw) org)) kw.

(** The test of [Fetch] on a reply: the identifier, one byte, then the
    keyword. *)
Definition fetchMatches (id org : bytes) : bool :=
  (len id + 1 <=? len org)
  && bytes_eqb (firstn (List.length id) org) id
  && carries (lit "FETCH") (skipn (List.length id + 1) org).

Ltac case_byte :=
  match goal with
  | |- context [Ascii.eqb ?a ?b] => destruct (Ascii.eqb a b) eqn:?
  | |- context [isDigit ?a] => destruct (isDigit a) eqn:?
  | |- context [Z.ltb ?a ?b] => destruct (Z.ltb a b) eqn:?
  | |- context [Z.eqb ?a ?b] => destruct (Z.eqb a b) eqn:?
  | |- context [reply.Length ?a] => destruct (reply.Length a) eqn:?
  end.

(** The reply in progress with [data] at the end of its origin and of its
    content. *)
Definition withLiteral (data : bytes) (r : Response.t) : Response.t :=
  Response.setCur
    (reply.mk (reply.origin (Response.cur r) ++ data)
              (reply.type_ (Response.cur r))
              (reply.length_ (Response.cur r))
              (reply.content (Response.cur r) ++ data)) r.

(** The reply in progress with [tok] at the end of its origin only. *)
Definition withOrigin (tok : bytes) (r : Response.t) : Response.t :=
  Response.setCur
    (reply.mk (reply.origin (Response.cur r) ++ tok)
              (reply.type_ (Response.cur r))
              (reply.length_ (Response.cur r))
              (reply.content (Response.cur r))) r.

Ltac open_response r :=
  let c := fresh "c" in
  destruct r as [? ? ? ? ? ? ? c]; destruct c; cbn in *.

(** The input of a literal whose length token holds no digit. *)
Definition bad_length_input : bytes :=
  lit "* 1 FETCH (BODY {abc}" ++ CRLF ++ lit "hello)" ++ CRLF.

(** A response with a literal whose length token is a digit and a letter,
    and a response whose reply has a literal and then a parenthesized list
    with a space in it. *)
Definition mixed_length_input : bytes :=
  lit "* 1 FETCH (BODY {1x}" ++ CRLF ++ lit "h)" ++ CRLF
  ++ lit "a001 OK done" ++ CRLF.

Definition stale_length_input : bytes :=
  lit "* 1 FETCH (BODY[TEXT] {3}" ++ CRLF
  ++ lit "abc FLAGS (\Seen \Answered))" ++ CRLF
  ++ lit "a001 OK done" ++ CRLF.

(** The reply in progress after the bytes [tok] of a length token: all of
    them at the end of its origin, the digits among them at the end of its
    length buffer. *)
Definition withLength (tok : bytes) (r : Response.t) : Response.t :=
  Response.setCur
    (reply.mk (reply.origin (Response.cur r) ++ tok)
              (reply.type_ (Response.cur r))
              (reply.length_ (Response.cur r) ++ filter isDigit tok)
              (reply.content (Response.cur r))) r.

(** The error of [Feed] on a length that does not parse. *)
Definition invalidLength : error :=
  errorString (lit "Parse response error, reply need a valid length number").

(** The test of the source on the status text. *)
Definition startsOK (s : bytes) : bool :=
  negb ((len s <? 3) || negb (bytes_eqb (firstn 3 s) (lit "OK "))).

(** What holds of a finished Response. *)
Definition finished_inv (r : Response.t) : Prop :=
  (Response.err r = None <-> firstn 3 (Response.status r) = lit "OK ")
  /\ (Response.err r = None
      \/ Response.err r = Some (errorString (Response.status r)))
  /\ ((Response.buf r = Response.id r ++ SP :: Response.status r
       /\ ~ In SP (Response.id r))
      \/ (Response.buf r = Response.id r /\ ~ In SP (Response.buf r)
          /\ Response.status r = [])).

(** What holds of every Response a caller can hold. *)
Definition parser_inv (r : Response.t) : Prop :=
  match Response.state r with
  | feedFinished => finished_inv r
  | _ => Response.id r = [] /\ Response.status r = []
         /\ Response.err r = None
  end.

(** The response of the fourth scenario, and a response whose status text
    is the success keyword alone. *)
Definition no_response : Response.t :=
  Eval vm_compute in
    fst (Response.Feed Response.NewResponse
           (lit "a004 NO mailbox not found" ++ CRLF)).

Definition bare_ok_response : Response.t :=
  Eval vm_compute in
    fst (Response.Feed Response.NewResponse (lit "a001 OK" ++ CRLF)).

(** A session of two commands: the greeting, then the responses. *)
Definition two_command_conn : conn.t :=
  conn.mk [inl (lit "* OK ready" ++ CRLF);
           inl (lit "a001 OK done" ++ CRLF);
           inl (lit "* SEARCH 1 2 3" ++ CRLF ++ lit "a002 OK done" ++ CRLF)]
          [] [].

Definition two_command_client : IMAPClient.t :=
  Eval vm_compute in
    match IMAPClient.NewClient two_command_conn with
    | Some c => c
    | None => IMAPClient.mk two_command_conn 0 []
    end.

(** The second scenario of the specification: the session after one
    command, and what [Do] returns for the search. *)
Definition search_client : IMAPClient.t :=
  IMAPClient.mk
    (conn.mk [inl (lit "* SEARCH 1 2 3" ++ CRLF ++ lit "a002 OK done" ++ CRLF)]
             [] [])
    1 [].

Definition search_done : IMAPClient.t * Response.t :=
  Eval vm_compute in IMAPClient.Do search_client (lit "SEARCH " ++ lit "ALL").

(** The third scenario of the specification: the session after two
    commands, and what [Do] returns for the fetch. *)
Definition fetch_client : IMAPClient.t :=
  IMAPClient.mk (conn.mk (map inl fetch_chunks) [] []) 2 [].

Definition fetch_done : IMAPClient.t * Response.t :=
  Eval vm_compute in
    IMAPClient.Do fetch_client (lit "FETCH " ++ lit "4" ++ [SP] ++ lit "RFC822.TEXT").

(** A server that answers the fetch of the headers with the status line
    alone. *)
Definition status_only_client : IMAPClient.t :=
  IMAPClient.mk (conn.mk [inl (lit "a001 OK done" ++ CRLF)] [] []) 0 [].

Definition status_only_done : IMAPClient.t * Response.t :=
  Eval vm_compute in
    IMAPClient.Do status_only_client (lit "FETCH " ++ lit "4" ++ [SP] ++ RFC822Header).

(** The length buffer of a reply holds decimal digits only. *)
Definition digitsOnly (c : reply.t) : Prop :=
  Forall (fun b => isDigit b = true) (reply.length_ c).

(** A reply has no literal, or its content has the length that its length
    buffer parses to. *)
Definition literalOK (c : reply.t) : Prop :=
  (reply.length_ c = [] /\ reply.content c = [])
  \/ reply.Length c = Some (len (reply.content c)).

Definition replyOK (c : reply.t) : Prop :=
  reply.origin c <> [] /\ digitsOnly c /\ literalOK c.

(** What holds of the replies of every Response a caller can hold. *)
Definition reply_inv (r : Response.t) : Prop :=
  Forall replyOK (Response.replys r)
  /\ match Response.state r with
     | feedReply | feedReplyType | feedReplyMeet0d => replyOK (Response.cur r)
     | feedReplyLength | feedReplyContent =>
         reply.origin (Response.cur r) <> [] /\ digitsOnly (Response.cur r)
     | _ => True
     end.

(** The line of an untagged reply without literal, and the status line. *)
Definition untaggedLine (o : bytes) : bytes :=
  "*"%char :: SP :: o ++ CRLF.

Definition statusLine (tag status : bytes) : bytes :=
  tag ++ SP :: status ++ CRLF.

(** A whole response: untagged lines, then the status line. *)
Definition render (origins : list bytes) (tag status : bytes) : bytes :=
  List.concat (map untaggedLine origins) ++ statusLine tag status.

(** The text of an untagged line that the parser takes as it is: not
    empty, not starting with a space, without carriage return and without
    opening parenthesis. *)
Definition plainOrigin (o : bytes) : Prop :=
  o <> [] /\ hd_error o <> Some SP /\ ~ In CR o /\ ~ In "("%char o.

(** A tag and a status text that make a status line: the tag does not
    start with the marker of untagged lines and has no space, and neither
    has a carriage return. *)
Definition plainStatus (tag status : bytes) : Prop :=
  hd_error tag <> Some "*"%char /\ ~ In SP tag /\ ~ In CR tag
  /\ ~ In CR status.

Definition plainReply (o : bytes) : reply.t := reply.mk o [] [] [].

(** The Response that the parser is expected to build from [render]. *)
Definition parsed (origins : list bytes) (tag status : bytes) : Response.t :=
  Response.mk tag status
    (if startsOK status then None else Some (errorString status))
    (map plainReply origins)
    (tag ++ SP :: status)
    feedFinished 0
    (last (map plainReply origins) reply.newReply).

(** A connection whose next [Write] does not fail. *)
Definition writable (k : conn.t) : Prop :=
  match conn.outcomes k with
  | Some _ :: _ => False
  | _ => True
  end.

(** The Response after one more plain reply. *)
Definition recordReply (o : bytes) (r : Response.t) : Response.t :=
  Response.mk (Response.id r) (Response.status r) (Response.err r)
    (Response.replys r ++ [plainReply o]) [] feedInit
    (Response.parenthesisCount r) (plainReply o).

(** A response whose literal starts with a line of its own. *)
Definition header_client : IMAPClient.t :=
  IMAPClient.mk
    (conn.mk [inl (lit "* 4 FETCH (BODY[TEXT] {9}" ++ CRLF
                   ++ lit "one" ++ CRLF ++ lit "two" ++ [LF] ++ lit ")" ++ CRLF
                   ++ lit "a001 OK done" ++ CRLF)] [] [])
    0 [].

Definition header_done : IMAPClient.t * Response.t :=
  Eval vm_compute in
    IMAPClient.Do header_client (lit "FETCH " ++ lit "4" ++ [SP] ++ lit "BODY[TEXT]").

(** A server that answers the fetch with a line that is the identifier
    alone. *)
Definition bare_id_client : IMAPClient.t :=
  IMAPClient.mk
    (conn.mk [inl (lit "* 4" ++ CRLF ++ lit "a001 OK done" ++ CRLF)] [] [])
    0 [].

Definition bare_id_done : IMAPClient.t * Response.t :=
  Eval vm_compute in
    IMAPClient.Do bare_id_client (lit "FETCH " ++ lit "4" ++ [SP] ++ RFC822Text).

(** A server that answers two fetches, each with one reply. *)
Definition message_client : IMAPClient.t :=
  IMAPClient.mk
    (conn.mk [inl (lit "* 4 FETCH (RFC822.HEADER {12}" ++ CRLF
                   ++ lit "Subject: hi" ++ [LF] ++ lit ")" ++ CRLF
                   ++ lit "a001 OK done" ++ CRLF);
              inl (lit "* 4 FETCH (RFC822.TEXT {5}" ++ CRLF
                   ++ lit "hello)" ++ CRLF ++ lit "a002 OK done" ++ CRLF)]
             [] [])
    0 [].

Definition message_header_done : IMAPClient.t * Response.t :=
  Eval vm_compute in
    IMAPClient.Do message_client (lit "FETCH " ++ lit "4" ++ [SP] ++ RFC822Header).

Definition message_body_done : IMAPClient.t * Response.t :=
  Eval vm_compute in
    IMAPClient.Do (fst message_header_done)
      (lit "FETCH " ++ lit "4" ++ [SP] ++ RFC822Text).

(** * Properties *)

(** The four scenarios of the specification, run through the model. *)
Example scenario1 :
  let k := conn.mk [inl (lit "* OK ready" ++ CRLF); inl (lit "a001 OK done" ++ CRLF)] [] [] in
  match IMAPClient.NewClient k with
  | Some c => let '(c', e) := IMAPClient.Login c (lit "u") (lit "p") in
      e = None /\ conn.sent (IMAPClient.conn_ c') = [lit "a001 LOGIN u p" ++ CRLF]
  | None => False
  end.
Proof. vm_compute. split; reflexivity. Qed.

Example scenario2 :
  let c := IMAPClient.mk (conn.mk [inl (lit "* SEARCH 1 2 3" ++ CRLF ++ lit "a002 OK done" ++ CRLF)] [] []) 1 [] in
  snd (IMAPClient.Search c (lit "ALL")) = ([lit "1"; lit "2"; lit "3"], None).
Proof. vm_compute. reflexivity. Qed.

Example scenario3 :
  let c := IMAPClient.mk (conn.mk [inl (lit "* 4 FETCH (RFC822.TEXT {5}" ++ CRLF ++ lit "hello)" ++ CRLF ++ lit "a003 OK done" ++ CRLF)] [] []) 2 [] in
  match IMAPClient.Fetch c (lit "4") (lit "RFC822.TEXT") with
  | Return (_, res) => res = (lit "hello", None)
  | Panic _ => False
  end.
Proof. vm_compute. reflexivity. Qed.

Example scenario4 :
  let c := IMAPClient.mk (conn.mk [inl (lit "a004 NO mailbox not found" ++ CRLF)] [] []) 3 [] in
  Response.err (snd (IMAPClient.Do c (lit "X"))) = Some (errorString (lit "NO mailbox not found")).
Proof. vm_compute. reflexivity. Qed.

(** ** Runs of the parser *)

(** ** The loop of [Feed] *)

Lemma feedByte_returns r i r' ret :
  Response.feedByte r i = (r', Some ret) -> ret <> (false, None).
Proof.
  unfold Response.feedByte.
  destruct (Response.state r); cbn;
    repeat case_byte; intros H; inversion H; subst; discriminate.
Qed.

Lemma Feed_returns r input r' :
  Response.Feed r input = (r', (false, None)) ->
  forall more, Response.Feed r (input ++ more) = Response.Feed r' more.
Proof.
  revert r. induction input as [|i input IH]; cbn; intros r H more.
  - inversion H; subst. reflexivity.
  - destruct (Response.feedByte r i) as [r1 [ret|]] eqn:E.
    + inversion H; subst. apply feedByte_returns in E. congruence.
    + apply IH, H.
Qed.

Lemma Feed_stops r input r' ret :
  Response.Feed r input = (r', ret) -> ret <> (false, None) ->
  forall more, Response.Feed r (input ++ more) = (r', ret).
Proof.
  revert r. induction input as [|i input IH]; cbn; intros r H Hret more.
  - inversion H; subst. congruence.
  - destruct (Response.feedByte r i) as [r1 [ret1|]] eqn:E.
    + exact H.
    + apply IH; assumption.
Qed.

Lemma Feed_app r a b :
  Response.Feed r (a ++ b) =
  match Response.Feed r a with
  | (r', (false, None)) => Response.Feed r' b
  | res => res
  end.
Proof.
  destruct (Response.Feed r a) as [r' [[|] [e|]]] eqn:E;
    first [ apply (Feed_returns _ _ _ E)
          | apply (Feed_stops _ _ _ _ E); discriminate ].
Qed.

Lemma Feed_finished r input :
  Response.state r = feedFinished ->
  fst (Response.Feed r input) = r.
Proof.
  intros H. destruct input as [|i rest]; cbn; [reflexivity|].
  unfold Response.feedByte. rewrite H. reflexivity.
Qed.

Lemma FeedAll_finished r chunks :
  Response.state r = feedFinished -> FeedAll r chunks = r.
Proof.
  induction chunks as [|c cs IH]; cbn; intros H; [reflexivity|].
  rewrite (Feed_finished r c H). apply IH, H.
Qed.

Lemma feedByte_done r i r' b :
  Response.feedByte r i = (r', Some (b, None)) ->
  Response.state r' = feedFinished.
Proof.
  unfold Response.feedByte.
  destruct (Response.state r); cbn;
    repeat case_byte; intros H; inversion H; subst; try discriminate.
  unfold Response.finish. cbn.
  repeat match goal with
         | |- context [match ?x with _ => _ end] => destruct x; cbn
         end; reflexivity.
Qed.

Lemma Feed_done r input r' :
  Response.Feed r input = (r', (true, None)) ->
  Response.state r' = feedFinished.
Proof.
  revert r. induction input as [|i input IH]; cbn; intros r H.
  - discriminate.
  - destruct (Response.feedByte r i) as [r1 [ret1|]] eqn:E.
    + inversion H; subst. eapply feedByte_done, E.
    + eapply IH, H.
Qed.

(** Feeding the chunks one by one ends where feeding their concatenation
    ends, when the latter reports the end of the response. *)
Lemma FeedAll_concat chunks : forall r r1,
  Response.Feed r (List.concat chunks) = (r1, (true, None)) ->
  FeedAll r chunks = r1.
Proof.
  induction chunks as [|c cs IH]; cbn; intros r r1 H.
  - discriminate.
  - rewrite Feed_app in H.
    destruct (Response.Feed r c) as [r' [[|] [e|]]] eqn:E; cbn.
    + discriminate.
    + inversion H; subst. apply FeedAll_finished.
      eapply Feed_done, E.
    + discriminate.
    + apply IH, H.
Qed.

(** One turn of the read loop of [Do] is one [Read] of the connection and
    one [Feed] of what it returns. *)
Lemma pump_Read k b ret :
  IMAPClient.pump (conn.incoming k) b ret =
  match conn.Read k with
  | (k', inr e) => (conn.incoming k', b, Response.setErr (Some e) ret)
  | (k', inl chunk) =>
      let b' := IMAPClient.readInto b chunk in
      match Response.Feed ret chunk with
      | (ret', (_, Some e)) =>
          (conn.incoming k', b', Response.setErr (Some e) ret')
      | (ret', (true, None)) => (conn.incoming k', b', ret')
      | (ret', (false, None)) => IMAPClient.pump (conn.incoming k') b' ret'
      end
  end.
Proof.
  unfold conn.Read. destruct (conn.incoming k) as [|[chunk|e] rs] eqn:E;
    cbn [IMAPClient.pump conn.incoming]; rewrite ?E; reflexivity.
Qed.

(** The read loop of [Do] on one chunk. *)
Lemma pump_single x b r :
  snd (IMAPClient.pump [inl x] b r) =
  match Response.Feed r x with
  | (r', (_, Some e)) => Response.setErr (Some e) r'
  | (r', (true, None)) => r'
  | (r', (false, None)) => Response.setErr (Some conn.EOF) r'
  end.
Proof.
  cbn. destruct (Response.Feed r x) as [r' [[|] [e|]]]; reflexivity.
Qed.

(** The read loop of [Do] sees no chunk boundary either, whether the bytes
    hold a whole response, a framing error or less than a response. *)
Lemma pump_concat chunks : forall b b' r,
  snd (IMAPClient.pump (map inl chunks) b r) =
  snd (IMAPClient.pump [inl (List.concat chunks)] b' r).
Proof.
  induction chunks as [|c cs IH]; intros b b' r.
  - reflexivity.
  - rewrite pump_single. cbn [map List.concat IMAPClient.pump].
    rewrite Feed_app.
    destruct (Response.Feed r c) as [r' [[|] [e|]]] eqn:E; cbn [snd];
      try reflexivity.
    rewrite (IH _ b' r'). apply pump_single.
Qed.

(** C1.  A byte sequence that holds one complete response (a fresh parser
    fed the whole of it reports the end of the response, without error)
    gives the same Response however it is cut into chunks: feeding the
    chunks in order leaves the very record that feeding the sequence at
    once leaves, so the same tag, status text and error and the same replies
    with the same origin, type and content; and so does the read loop of
    [Do] when the chunks are what its reads return. *)
Theorem Feed_chunk_independent (chunks : list bytes) (r1 : Response.t) :
  Response.Feed Response.NewResponse (List.concat chunks) = (r1, (true, None)) ->
  FeedAll Response.NewResponse chunks = r1
  /\ (forall b, snd (IMAPClient.pump (map inl chunks) b Response.NewResponse) = r1)
  /\ Response.id (FeedAll Response.NewResponse chunks) = Response.id r1
  /\ Response.status (FeedAll Response.NewResponse chunks) = Response.status r1
  /\ Response.err (FeedAll Response.NewResponse chunks) = Response.err r1
  /\ map (fun x => (reply.origin x, reply.type_ x, reply.content x))
         (Response.replys (FeedAll Response.NewResponse chunks)) =
     map (fun x => (reply.origin x, reply.type_ x, reply.content x))
         (Response.replys r1).
Proof.
  intros H.
  assert (E : FeedAll Response.NewResponse chunks = r1)
    by (apply FeedAll_concat, H).
  rewrite E. repeat split.
  intros b. rewrite (pump_concat chunks b b), pump_single, H. reflexivity.
Qed.

Lemma Feed_chunk_independent_witness :
  Response.Feed Response.NewResponse (List.concat fetch_chunks) =
    (fetch_response, (true, None))
  /\ FeedAll Response.NewResponse fetch_chunks = fetch_response.
Proof.
  assert (H : Response.Feed Response.NewResponse (List.concat fetch_chunks) =
              (fetch_response, (true, None)))
    by (vm_compute; reflexivity).
  split; [exact H|].
  exact (proj1 (Feed_chunk_independent fetch_chunks fetch_response H)).
Defined.

(** C5.  A Response in the finished state takes no further byte: [Feed] on
    any non-empty input returns the error of a feed past the end and leaves
    the Response as it was, replies, tag and status text included. *)
Theorem Feed_after_finished (r : Response.t) (i : byte) (rest : bytes) :
  Response.state r = feedFinished ->
  Response.Feed r (i :: rest) =
    (r, (true, Some (errorString (lit "Need no more feed")))).
Proof.
  intros H. cbn. unfold Response.feedByte. rewrite H. reflexivity.
Qed.

Lemma Feed_after_finished_witness :
  Response.state fetch_response = feedFinished
  /\ Response.Feed fetch_response (lit "* 7") =
       (fetch_response, (true, Some (errorString (lit "Need no more feed")))).
Proof.
  assert (H : Response.state fetch_response = feedFinished)
    by (vm_compute; reflexivity).
  split; [exact H|].
  exact (Feed_after_finished fetch_response "*"%char (lit " 7") H).
Defined.

(** ** The end of a reply *)

Lemma feedByte_Meet0d_LF r :
  Response.state r = feedReplyMeet0d ->
  Response.feedByte r LF =
    (Response.setBuf []
       (Response.setReplys (Response.replys r ++ [Response.cur r])
          (Response.setState feedInit r)), None).
Proof. intros H. unfold Response.feedByte. rewrite H. reflexivity. Qed.

(** After a carriage return, a byte other than the line feed goes to the
    origin alone: the carriage return itself is not put back, where the
    status line puts it back. *)
Lemma feedByte_Meet0d_other r b :
  Response.state r = feedReplyMeet0d -> b <> LF ->
  Response.feedByte r b =
    (Response.setCur (reply.addOrigin b (Response.cur r))
       (Response.setState feedReply r), None).
Proof.
  intros H Hb. unfold Response.feedByte. rewrite H.
  destruct (Ascii.eqb b LF) eqn:E; [|reflexivity].
  apply Ascii.eqb_eq in E. contradiction.
Qed.

Lemma feedByte_StatusLineMeet0d_other r b :
  Response.state r = feedStatusLineMeet0d -> b <> LF ->
  Response.feedByte r b =
    (Response.setBuf (Response.buf r ++ [CR; b])
       (Response.setState feedStatusLine r), None).
Proof.
  intros H Hb. unfold Response.feedByte. rewrite H.
  destruct (Ascii.eqb b LF) eqn:E; [|reflexivity].
  apply Ascii.eqb_eq in E. contradiction.
Qed.

(** C6.  On the reply whose line holds a carriage return that no line feed
    follows, the line feed after the last carriage return closes the
    reply and the parser is back in its initial state, but the origin
    recorded is the line without the lone carriage return, not the line
    with it. *)
Theorem ReplyMeet0d_drops_CR :
  let r := fst (Response.Feed Response.NewResponse
                  (lit "* a" ++ [CR] ++ lit "b" ++ CRLF)) in
  Response.state r = feedInit
  /\ map reply.origin (Response.replys r) = [lit "ab"]
  /\ map reply.origin (Response.replys r) <> [lit "a" ++ [CR] ++ lit "b"].
Proof. vm_compute. repeat split; discriminate. Qed.

(** ** Literals *)

Lemma withLiteral_nil r : withLiteral [] r = r.
Proof.
  open_response r. unfold withLiteral, Response.setCur. cbn.
  rewrite !app_nil_r. reflexivity.
Qed.

Lemma withOrigin_nil r : withOrigin [] r = r.
Proof.
  open_response r. unfold withOrigin, Response.setCur. cbn.
  rewrite !app_nil_r. reflexivity.
Qed.

Lemma len_app {A} (a b : list A) : len (a ++ b) = len a + len b.
Proof. unfold len. rewrite length_app. lia. Qed.

(** In the content state a byte, whatever it is, goes to the origin and to
    the content; the length is then parsed, and the state left when the
    content has that length. *)
Lemma feedByte_content r i :
  Response.state r = feedReplyContent ->
  Response.feedByte r i =
    match Atoi (reply.length_ (Response.cur r)) with
    | None =>
        (withLiteral [i] r,
         Some (false, Some (errorString (lit
           "Parse response error, reply need a valid length number"))))
    | Some n =>
        if len (reply.content (Response.cur r)) + 1 =? n
        then (Response.setState feedReply (withLiteral [i] r), None)
        else (withLiteral [i] r, None)
    end.
Proof.
  intros H. unfold Response.feedByte. rewrite H.
  open_response r. unfold reply.Length. cbn.
  rewrite len_app. reflexivity.
Qed.

(** While the content is short of the length, every byte of the input is
    content, carriage returns and line feeds like the others. *)
Lemma Feed_content_run data : forall r n,
  Response.state r = feedReplyContent ->
  Atoi (reply.length_ (Response.cur r)) = Some n ->
  (forall k, 0 < k <= len data ->
             len (reply.content (Response.cur r)) + k <> n) ->
  Response.Feed r data = (withLiteral data r, (false, None)).
Proof.
  induction data as [|i data IH]; intros r n Hs Hn Hk.
  - cbn. rewrite withLiteral_nil. reflexivity.
  - cbn [Response.Feed]. rewrite (feedByte_content r i Hs), Hn.
    assert (L : len (i :: data) = 1 + len data)
      by (unfold len; cbn [List.length]; lia).
    destruct (Z.eqb_spec (len (reply.content (Response.cur r)) + 1) n) as [E|E].
    + exfalso. apply (Hk 1); [unfold len in *; lia | exact E].
    + rewrite (IH (withLiteral [i] r) n).
      * f_equal. open_response r. unfold withLiteral, Response.setCur. cbn.
        rewrite <- !app_assoc. reflexivity.
      * open_response r. exact Hs.
      * open_response r. exact Hn.
      * intros k Hk'. specialize (Hk (1 + k)).
        change (reply.content (Response.cur (withLiteral [i] r)))
          with (reply.content (Response.cur r) ++ [i]).
        rewrite len_app. change (len [i]) with 1. lia.
Qed.

(** A literal of a declared length of at least one byte is captured
    whole and byte for byte, and the parser is back in the reply state right
    after its last byte. *)
Lemma Feed_literal_exact r n data rest :
  Response.state r = feedReplyContent ->
  reply.content (Response.cur r) = [] ->
  Atoi (reply.length_ (Response.cur r)) = Some n ->
  0 < n -> len data = n ->
  Response.Feed r (data ++ rest) =
    Response.Feed (Response.setState feedReply (withLiteral data r)) rest
  /\ reply.content (Response.cur (withLiteral data r)) = data.
Proof.
  intros Hs Hc Hn Hpos Hlen. split.
  - destruct (exists_last (l := data)) as [d [x E]].
    { intros ->. change (len (@nil byte)) with 0 in Hlen. lia. }
    subst data. rewrite <- app_assoc.
    rewrite (Feed_returns r d (withLiteral d r)).
    + cbn [app Response.Feed].
      rewrite feedByte_content by (open_response r; exact Hs).
      replace (Atoi (reply.length_ (Response.cur (withLiteral d r))))
        with (Some n) by (open_response r; symmetry; exact Hn).
      replace (len (reply.content (Response.cur (withLiteral d r))) + 1 =? n)
        with true.
      * f_equal. f_equal. open_response r.
        unfold withLiteral, Response.setCur. cbn.
        rewrite <- !app_assoc. reflexivity.
      * symmetry. apply Z.eqb_eq.
        change (reply.content (Response.cur (withLiteral d r)))
          with (reply.content (Response.cur r) ++ d).
        rewrite Hc. rewrite len_app in Hlen.
        change (len [x]) with 1 in Hlen. cbn [app]. lia.
    + apply (Feed_content_run d r n Hs Hn).
      intros k Hk. rewrite Hc. rewrite len_app in Hlen.
      change (len [x]) with 1 in Hlen. change (len (@nil byte)) with 0. lia.
  - open_response r. subst. reflexivity.
Qed.

(** A declared length of zero is never met: the test comes after the byte
    is taken, so the content grows with all that is fed. *)
Lemma Feed_literal_zero r data :
  Response.state r = feedReplyContent ->
  Atoi (reply.length_ (Response.cur r)) = Some 0 ->
  Response.Feed r data = (withLiteral data r, (false, None)).
Proof.
  intros Hs Hn. apply (Feed_content_run data r 0 Hs Hn).
  intros k Hk. unfold len in *. lia.
Qed.

(** C2.  On a reply with a literal of declared length zero the parser does
    not capture zero bytes: the closing parenthesis, the end of the line
    and the whole status line after it go into the content, the parser is
    still in the content state at the end of the input, and neither the
    reply nor the end of the response is ever reported. *)
Theorem Feed_zero_length_literal :
  let input := lit "* 1 FETCH (BODY {0}" ++ CRLF ++ lit ")" ++ CRLF
               ++ lit "a001 OK done" ++ CRLF in
  let '(r, ret) := Response.Feed Response.NewResponse input in
  ret = (false, None)
  /\ Response.state r = feedReplyContent
  /\ reply.Length (Response.cur r) = Some 0
  /\ reply.content (Response.cur r) =
       lit ")" ++ CRLF ++ lit "a001 OK done" ++ CRLF
  /\ Response.replys r = [].
Proof. vm_compute. repeat split. Qed.

(** ** The status line *)

Lemma bytes_eqb_eq a : forall b, bytes_eqb a b = true <-> a = b.
Proof.
  induction a as [|x a IH]; intros [|y b]; cbn; try (split; congruence).
  rewrite andb_true_iff, Ascii.eqb_eq, IH. split.
  - intros [-> ->]. reflexivity.
  - intros H. inversion H. auto.
Qed.

Lemma cut_Some sep s a b :
  cut sep s = Some (a, b) -> s = a ++ sep :: b /\ ~ In sep a.
Proof.
  revert a. induction s as [|c s IH]; cbn; intros a H; [discriminate|].
  destruct (Ascii.eqb c sep) eqn:E.
  - apply Ascii.eqb_eq in E. inversion H; subst. split; [reflexivity|].
    intros [].
  - destruct (cut sep s) as [[a' b']|]; [|discriminate].
    inversion H; subst. destruct (IH a' eq_refl) as [-> Hn].
    split; [reflexivity|]. intros [Hc|Hc]; [|contradiction].
    subst. rewrite Ascii.eqb_refl in E. discriminate.
Qed.

Lemma cut_None sep s : cut sep s = None -> ~ In sep s.
Proof.
  induction s as [|c s IH]; cbn; intros H; [intros []|].
  destruct (Ascii.eqb c sep) eqn:E; [discriminate|].
  destruct (cut sep s) as [[a' b']|]; [discriminate|].
  intros [Hc|Hc]; [|exact (IH eq_refl Hc)].
  subst. rewrite Ascii.eqb_refl in E. discriminate.
Qed.

Lemma cut_app sep a b : ~ In sep a -> cut sep (a ++ sep :: b) = Some (a, b).
Proof.
  induction a as [|c a IH]; cbn; intros H.
  - rewrite Ascii.eqb_refl. reflexivity.
  - destruct (Ascii.eqb c sep) eqn:E.
    + apply Ascii.eqb_eq in E. exfalso. auto.
    + rewrite IH by auto. reflexivity.
Qed.

Lemma startsOK_iff s : startsOK s = true <-> firstn 3 s = lit "OK ".
Proof.
  unfold startsOK. rewrite negb_true_iff, orb_false_iff, negb_false_iff,
    bytes_eqb_eq, Z.ltb_ge. split; [tauto|].
  intros H. split; [|exact H].
  assert (L : List.length (firstn 3 s) = 3%nat) by (rewrite H; reflexivity).
  rewrite length_firstn in L. unfold len. lia.
Qed.

(** In the words of the specification: the status text starts with OK and
    a space exactly when its leading token is OK and it is not OK alone. *)
Lemma startsOK_leadingToken s :
  firstn 3 s = lit "OK " <-> leadingToken s = lit "OK" /\ s <> lit "OK".
Proof.
  unfold leadingToken. split.
  - intros H. destruct s as [|a [|b [|c s]]]; try discriminate.
    cbn in H. inversion H; subst. cbn. split; [reflexivity|discriminate].
  - intros [H Hn]. destruct (cut SP s) as [[a b]|] eqn:E.
    + apply cut_Some in E. destruct E as [-> _]. subst a. reflexivity.
    + contradiction.
Qed.

Lemma SplitN_2 s sep :
  SplitN s sep 2 =
  match cut sep s with
  | Some (a, b) => [a; b]
  | None => [s]
  end.
Proof.
  unfold SplitN. change (Z.to_nat (2 - 1)) with 1%nat. cbn.
  destruct (cut sep s) as [[a b]|]; reflexivity.
Qed.

Lemma finish_inv r :
  Response.id r = [] -> Response.status r = [] -> Response.err r = None ->
  Response.state (Response.finish r) = feedFinished
  /\ finished_inv (Response.finish r).
Proof.
  intros Hi Hs He. destruct r as [i s e l buf st p c]. cbn in Hi, Hs, He.
  subst. unfold Response.finish. rewrite SplitN_2. cbn -[firstn lit len].
  destruct (cut SP buf) as [[a b]|] eqn:E; cbn -[firstn lit len].
  - apply cut_Some in E. destruct E as [-> Hn].
    pose proof (startsOK_iff b) as S. unfold startsOK in S.
    destruct ((len b <? 3) || negb (bytes_eqb (firstn 3 b) (lit "OK ")));
      cbn -[firstn lit len] in *.
    + split; [reflexivity|].
      unfold finished_inv; cbn -[firstn lit len]. repeat split; auto.
      * discriminate.
      * intros H. apply S in H. discriminate.
    + split; [reflexivity|].
      unfold finished_inv; cbn -[firstn lit len]. repeat split; auto.
      intros _. apply S. reflexivity.
  - apply cut_None in E. split; [reflexivity|].
    unfold finished_inv; cbn. repeat split; auto; discriminate.
Qed.

Lemma feedByte_inv r i :
  parser_inv r -> parser_inv (fst (Response.feedByte r i)).
Proof.
  unfold parser_inv, Response.feedByte.
  destruct (Response.state r) eqn:S; intros H;
    try (repeat case_byte; cbn; rewrite ?S; exact H).
  repeat case_byte; cbn; [|rewrite ?S; exact H].
  destruct H as (Hi & Hs & He).
  destruct (finish_inv r Hi Hs He) as [-> Hf]. exact Hf.
Qed.

Lemma Feed_inv input : forall r,
  parser_inv r -> parser_inv (fst (Response.Feed r input)).
Proof.
  induction input as [|i input IH]; intros r H; [exact H|].
  cbn [Response.Feed]. pose proof (feedByte_inv r i H) as H1.
  destruct (Response.feedByte r i) as [r1 [ret|]]; [exact H1|].
  apply IH, H1.
Qed.

Lemma reachable_inv r : reachable r -> parser_inv r.
Proof.
  induction 1 as [|r input _ IH].
  - cbn. auto.
  - apply Feed_inv, IH.
Qed.

Lemma reachable_no_response : reachable no_response.
Proof.
  exact (reach_feed Response.NewResponse
           (lit "a004 NO mailbox not found" ++ CRLF) reach_new).
Qed.

Lemma reachable_bare_ok_response : reachable bare_ok_response.
Proof.
  exact (reach_feed Response.NewResponse (lit "a001 OK" ++ CRLF) reach_new).
Qed.

(** C3, as stated, fails: the response whose status line is the tag and the
    success keyword alone is finished, the leading token of its status text
    is the success keyword, and its error is not nil. *)
Lemma bare_OK_is_an_error :
  Response.Feed Response.NewResponse (lit "a001 OK" ++ CRLF) =
    (bare_ok_response, (true, None))
  /\ reachable bare_ok_response
  /\ Response.state bare_ok_response = feedFinished
  /\ leadingToken (Response.status bare_ok_response) = lit "OK"
  /\ Response.err bare_ok_response = Some (errorString (lit "OK"))
  /\ ~ (Response.err bare_ok_response = None <->
        leadingToken (Response.status bare_ok_response) = lit "OK").
Proof.
  split; [vm_compute; reflexivity|].
  split; [exact reachable_bare_ok_response|].
  repeat split. intros [_ H]. specialize (H eq_refl). discriminate.
Qed.

(** C3, amended.  For every finished Response, the error is nil if and only
    if the status text starts with the success keyword followed by a space,
    that is, if and only if its leading token is the success keyword and
    the status text is more than the keyword alone; when the error is not
    nil its message is the status text; and the status text is what
    follows the first space of the status line, the tag being what comes
    before it (a line without a space is all tag, with an empty status
    text). *)
Theorem finished_error_iff_not_OK (r : Response.t) :
  reachable r -> Response.state r = feedFinished ->
  (Response.err r = None <-> firstn 3 (Response.status r) = lit "OK ")
  /\ (Response.err r = None <->
      leadingToken (Response.status r) = lit "OK"
      /\ Response.status r <> lit "OK")
  /\ (Response.err r <> None ->
      Response.err r = Some (errorString (Response.status r)))
  /\ ((Response.buf r = Response.id r ++ SP :: Response.status r
       /\ ~ In SP (Response.id r))
      \/ (Response.buf r = Response.id r /\ ~ In SP (Response.buf r)
          /\ Response.status r = [])).
Proof.
  intros Hr Hs. apply reachable_inv in Hr. unfold parser_inv in Hr.
  rewrite Hs in Hr. destruct Hr as (H1 & H2 & H3).
  pose proof (startsOK_leadingToken (Response.status r)) as T.
  repeat split; try tauto.
Qed.

Lemma finished_error_iff_not_OK_witness :
  reachable no_response
  /\ Response.state no_response = feedFinished
  /\ Response.err no_response =
       Some (errorString (lit "NO mailbox not found"))
  /\ Response.buf no_response = lit "a004 NO mailbox not found".
Proof.
  pose proof (finished_error_iff_not_OK no_response reachable_no_response
                eq_refl) as (_ & _ & H & _).
  split; [exact reachable_no_response|]. split; [reflexivity|].
  split; [|reflexivity]. apply H. discriminate.
Defined.

(** ** Tags and command lines *)

Lemma wrapInt_small z : minInt <= z <= maxInt -> wrapInt z = z.
Proof.
  unfold wrapInt, minInt, maxInt. intros H.
  rewrite Z.mod_small; lia.
Qed.

Lemma parseDigits_uint_acc d : forall acc,
  parseDigits (Z.pos acc) (lit (DecimalString.NilEmpty.string_of_uint d)) =
  Some (Z.pos (Pos.of_uint_acc d acc)).
Proof.
  induction d; intros acc; cbn [DecimalString.NilEmpty.string_of_uint lit
    list_ascii_of_string parseDigits Pos.of_uint_acc];
    [reflexivity | ..];
    change (lit (DecimalString.NilEmpty.string_of_uint d))
      with (list_ascii_of_string (DecimalString.NilEmpty.string_of_uint d))
      in IHd;
    match goal with
    | |- (if isDigit ?c then _ else _) = _ =>
        change (isDigit c) with true; cbn iota
    end;
    match goal with
    | |- parseDigits ?x _ = Some (Z.pos (Pos.of_uint_acc _ ?y)) =>
        replace x with (Z.pos y)
          by (match goal with
              | |- context [digitVal ?c] =>
                  let v := eval vm_compute in (digitVal c) in
                  change (digitVal c) with v
              end; lia)
    end; apply IHd.
Qed.

Lemma parseDigits_uint d :
  parseDigits 0 (lit (DecimalString.NilEmpty.string_of_uint d)) =
  Some (Z.of_N (N.of_uint d)).
Proof.
  induction d; cbn [DecimalString.NilEmpty.string_of_uint lit
    list_ascii_of_string parseDigits];
    [reflexivity | ..];
    match goal with
    | |- (if isDigit ?c then _ else _) = _ =>
        change (isDigit c) with true; cbn iota
    end;
    [ exact IHd | .. ];
    match goal with
    | |- parseDigits ?x _ = _ =>
        let v := eval vm_compute in x in change x with v
    end;
    apply (parseDigits_uint_acc d).
Qed.

Lemma parseDigits_decimal n : parseDigits 0 (decimal n) = Some (Z.of_N n).
Proof.
  unfold decimal. rewrite parseDigits_uint.
  change (N.of_uint (N.to_uint n)) with (N.of_uint (N.to_uint n)).
  rewrite DecimalN.Unsigned.of_to. reflexivity.
Qed.

Lemma parseDigits_zeros k s : parseDigits 0 (repeat "0"%char k ++ s) = parseDigits 0 s.
Proof. induction k as [|k IH]; [reflexivity|exact IH]. Qed.

Lemma parseDigits_all_digits s : forall acc v,
  parseDigits acc s = Some v -> Forall (fun c => isDigit c = true) s.
Proof.
  induction s as [|c s IH]; cbn; intros acc v H; [constructor|].
  destruct (isDigit c) eqn:E; [|discriminate].
  constructor; [exact E|]. eapply IH, H.
Qed.

(** A number that is not negative is printed as digits only, three at
    least, and reads back as itself. *)
Lemma fmt03d_spec n :
  0 <= n ->
  parseDigits 0 (fmt03d n) = Some n
  /\ Forall (fun c => isDigit c = true) (fmt03d n)
  /\ (3 <= List.length (fmt03d n))%nat.
Proof.
  intros H. unfold fmt03d.
  destruct (Z.ltb_spec n 0) as [|_]; [lia|].
  assert (P : parseDigits 0 (padZero 3 (decimal (Z.to_N n))) = Some n).
  { unfold padZero. rewrite parseDigits_zeros, parseDigits_decimal.
    f_equal. lia. }
  split; [exact P|]. split; [eapply parseDigits_all_digits, P|].
  unfold padZero. rewrite length_app, repeat_length. lia.
Qed.

Lemma tag_spec n :
  0 <= n ->
  tagNumber (IMAPClient.tag n) = Some n
  /\ hd_error (IMAPClient.tag n) = Some "a"%char
  /\ ~ In "*"%char (IMAPClient.tag n)
  /\ ~ In SP (IMAPClient.tag n)
  /\ (4 <= List.length (IMAPClient.tag n))%nat.
Proof.
  intros H. destruct (fmt03d_spec n H) as (P & D & L).
  unfold IMAPClient.tag, tagNumber. cbn [hd_error List.length].
  rewrite Ascii.eqb_refl.
  assert (N : forall c, isDigit c = false -> "a"%char <> c ->
                        ~ In c ("a"%char :: fmt03d n)).
  { intros c Hc Ha [E|E]; [contradiction|].
    rewrite Forall_forall in D. rewrite (D c E) in Hc. discriminate. }
  repeat split;
    [exact P | apply N; [reflexivity|discriminate]
     | apply N; [reflexivity|discriminate] | lia].
Qed.

Lemma Do_sent c cmd :
  conn.sent (IMAPClient.conn_ (fst (IMAPClient.Do c cmd))) =
    conn.sent (IMAPClient.conn_ c)
    ++ [IMAPClient.commandLine (wrapInt (IMAPClient.count c + 1)) cmd]
  /\ IMAPClient.count (fst (IMAPClient.Do c cmd)) =
     wrapInt (IMAPClient.count c + 1).
Proof.
  unfold IMAPClient.Do, conn.Write.
  destruct (conn.outcomes (IMAPClient.conn_ c)) as [|[e|] rest]; cbn;
    try (split; reflexivity);
    match goal with
    | |- context [IMAPClient.pump ?a ?b ?r] =>
        destruct (IMAPClient.pump a b r) as [[rs b'] ret']
    end; cbn; split; reflexivity.
Qed.

Lemma DoAll_sent cmds : forall c,
  0 <= IMAPClient.count c ->
  IMAPClient.count c + len cmds <= maxInt ->
  conn.sent (IMAPClient.conn_ (DoAll c cmds)) =
    conn.sent (IMAPClient.conn_ c)
    ++ commandLines (IMAPClient.count c + 1) cmds
  /\ IMAPClient.count (DoAll c cmds) = IMAPClient.count c + len cmds.
Proof.
  induction cmds as [|cmd cmds IH]; intros c H0 H1.
  - cbn. rewrite List.app_nil_r. change (len (@nil bytes)) with 0.
    split; [reflexivity|lia].
  - assert (L : len (cmd :: cmds) = 1 + len cmds)
      by (unfold len; cbn [List.length]; lia).
    rewrite L in *. assert (0 <= len cmds) by (unfold len; lia).
    cbn [DoAll commandLines].
    destruct (Do_sent c cmd) as [S C].
    rewrite wrapInt_small in S, C by (unfold minInt, maxInt in *; lia).
    destruct (IH (fst (IMAPClient.Do c cmd))) as [S' C'];
      [lia | lia |].
    rewrite S', S, C', C, <- List.app_assoc. split; [reflexivity|lia].
Qed.

Lemma nth_commandLines cmds : forall n i cmd,
  nth_error cmds i = Some cmd ->
  nth_error (commandLines n cmds) i =
    Some (IMAPClient.tag (n + Z.of_nat i) ++ [SP] ++ cmd ++ CRLF).
Proof.
  induction cmds as [|c cmds IH]; intros n [|i] cmd H;
    cbn [nth_error commandLines] in *; try discriminate.
  - inversion H; subst. rewrite Z.add_0_r. reflexivity.
  - rewrite (IH (n + 1) i cmd H).
    replace (n + Z.of_nat (S i)) with (n + 1 + Z.of_nat i) by lia.
    reflexivity.
Qed.

Lemma NewClient_count k c :
  IMAPClient.NewClient k = Some c ->
  IMAPClient.count c = 0
  /\ conn.sent (IMAPClient.conn_ c) = conn.sent k.
Proof.
  unfold IMAPClient.NewClient.
  destruct (IMAPClient.greeting (conn.incoming k) _) as [[rs b]|];
    [|discriminate].
  intros H. inversion H. split; reflexivity.
Qed.

(** C7.  In every session, the commands issued one after the other (fewer
    than the largest [int]) are written, in order, each as the one line of
    its tag, a space, the text of the command and the end of line; the
    command of rank [i] (from zero) has the tag numbered [i + 1], so the
    numbers start at one and go up by one with each command; and a tag is
    the letter a followed by three decimal digits at least, which read back
    as its number: it holds neither the marker of untagged lines nor a
    space. *)
Theorem Do_tags_and_lines (k : conn.t) (c : IMAPClient.t) (cmds : list bytes) :
  IMAPClient.NewClient k = Some c ->
  len cmds <= maxInt ->
  conn.sent (IMAPClient.conn_ (DoAll c cmds)) = conn.sent k ++ commandLines 1 cmds
  /\ (forall i cmd, nth_error cmds i = Some cmd ->
        nth_error (commandLines 1 cmds) i =
          Some (IMAPClient.tag (1 + Z.of_nat i) ++ [SP] ++ cmd ++ CRLF))
  /\ (forall n, 1 <= n ->
        tagNumber (IMAPClient.tag n) = Some n
        /\ hd_error (IMAPClient.tag n) = Some "a"%char
        /\ ~ In "*"%char (IMAPClient.tag n)
        /\ ~ In SP (IMAPClient.tag n)
        /\ (4 <= List.length (IMAPClient.tag n))%nat)
  /\ (forall n m, 1 <= n < m -> IMAPClient.tag n <> IMAPClient.tag m).
Proof.
  intros HN HL. destruct (NewClient_count k c HN) as [C S].
  destruct (DoAll_sent cmds c) as [D _]; [lia | lia |].
  rewrite C, S in D.
  split; [exact D|].
  split; [intros i cmd; apply nth_commandLines|].
  split; [intros n Hn; apply tag_spec; lia|].
  - intros n m H E.
    assert (Hn : tagNumber (IMAPClient.tag n) = Some n) by (apply tag_spec; lia).
    assert (Hm : tagNumber (IMAPClient.tag m) = Some m) by (apply tag_spec; lia).
    rewrite E, Hm in Hn. inversion Hn. lia.
Qed.

Lemma Do_tags_and_lines_witness :
  IMAPClient.NewClient two_command_conn = Some two_command_client
  /\ len [lit "LOGIN u p"; lit "SEARCH ALL"] <= maxInt
  /\ conn.sent (IMAPClient.conn_
       (DoAll two_command_client [lit "LOGIN u p"; lit "SEARCH ALL"])) =
     [lit "a001 LOGIN u p" ++ CRLF; lit "a002 SEARCH ALL" ++ CRLF].
Proof.
  assert (H1 : IMAPClient.NewClient two_command_conn = Some two_command_client)
    by (vm_compute; reflexivity).
  assert (H2 : len [lit "LOGIN u p"; lit "SEARCH ALL"] <= maxInt)
    by (vm_compute; discriminate).
  split; [exact H1|]. split; [exact H2|].
  exact (proj1 (Do_tags_and_lines two_command_conn two_command_client
                  [lit "LOGIN u p"; lit "SEARCH ALL"] H1 H2)).
Defined.

(** ** Search *)

Lemma Split_not_nil s sep : Split s sep <> [].
Proof.
  destruct s as [|c s]; cbn; [discriminate|].
  destruct (Ascii.eqb c sep); [discriminate|].
  destruct (Split s sep); discriminate.
Qed.

Lemma Split_no_sep p sep : ~ In sep p -> Split p sep = [p].
Proof.
  induction p as [|c p IH]; cbn; intros H; [reflexivity|].
  destruct (Ascii.eqb c sep) eqn:E.
  - apply Ascii.eqb_eq in E. exfalso. auto.
  - rewrite IH by auto. reflexivity.
Qed.

Lemma Split_app p sep rest :
  ~ In sep p -> Split (p ++ sep :: rest) sep = p :: Split rest sep.
Proof.
  induction p as [|c p IH]; cbn [app Split]; intros H.
  - rewrite Ascii.eqb_refl. reflexivity.
  - destruct (Ascii.eqb c sep) eqn:E.
    + apply Ascii.eqb_eq in E. exfalso. apply H. left. exact E.
    + rewrite IH by (intros Hp; apply H; right; exact Hp). reflexivity.
Qed.

Lemma Split_Join ps sep :
  ps <> [] -> Forall (fun p => ~ In sep p) ps -> Split (Join ps sep) sep = ps.
Proof.
  induction ps as [|p ps IH]; intros Hn H; [contradiction|].
  inversion H as [|? ? Hp Hps]; subst.
  destruct ps as [|q ps].
  - cbn. apply Split_no_sep, Hp.
  - change (Join (p :: q :: ps) sep) with (p ++ sep :: Join (q :: ps) sep).
    rewrite Split_app by exact Hp. rewrite IH; [reflexivity|discriminate|exact Hps].
Qed.

Lemma TrimLeft_all s cutset :
  Forall (fun c => inCutset cutset c = true) s -> TrimLeft s cutset = [].
Proof.
  induction 1 as [|c s Hc _ IH]; cbn; [reflexivity|].
  rewrite Hc. exact IH.
Qed.

Lemma TrimLeft_head c s cutset :
  inCutset cutset c = false -> TrimLeft (c :: s) cutset = c :: s.
Proof. intros H. cbn. rewrite H. reflexivity. Qed.

Lemma TrimRight_last s c cutset :
  inCutset cutset c = false -> TrimRight (s ++ [c]) cutset = s ++ [c].
Proof.
  intros H. unfold TrimRight. rewrite rev_app_distr. cbn [rev app].
  rewrite TrimLeft_head by exact H.
  change (rev (c :: rev s)) with (rev (rev s) ++ [c]).
  rewrite rev_involutive. reflexivity.
Qed.

Lemma identifier_no_space x : identifier x -> ~ In SP x.
Proof.
  intros [_ H] Hin. rewrite Forall_forall in H.
  specialize (H SP Hin). discriminate.
Qed.

(** A list of identifiers joined by spaces starts and ends with a byte
    that is not trimmed. *)
Lemma Join_ends ids :
  ids <> [] -> Forall identifier ids ->
  (exists c s, Join ids SP = c :: s /\ inCutset whitespace c = false)
  /\ (exists s c, Join ids SP = s ++ [c] /\ inCutset whitespace c = false).
Proof.
  induction ids as [|x ids IH]; intros Hn H; [contradiction|].
  inversion H as [|? ? [Hx Hc] Hids]; subst.
  assert (F : exists c s, x = c :: s /\ inCutset whitespace c = false).
  { destruct x as [|c s]; [contradiction|]. exists c, s.
    split; [reflexivity|]. inversion Hc; assumption. }
  destruct ids as [|y ids].
  - split; [exact F|]. cbn [Join].
    destruct (exists_last Hx) as [s [c E]]. exists s, c.
    split; [exact E|]. subst x. rewrite Forall_app in Hc.
    destruct Hc as [_ Hc]. inversion Hc; assumption.
  - change (Join (x :: y :: ids) SP) with (x ++ SP :: Join (y :: ids) SP).
    split.
    + destruct F as (c & s & -> & Hcl). exists c, (s ++ SP :: Join (y :: ids) SP).
      split; [reflexivity|exact Hcl].
    + destruct (IH ltac:(discriminate) Hids) as [_ (s & c & E & Hcl)].
      exists (x ++ SP :: s), c. rewrite E, <- List.app_assoc.
      split; [reflexivity|exact Hcl].
Qed.

Lemma Trim_Join ids :
  ids <> [] -> Forall identifier ids ->
  Trim (SP :: Join ids SP) whitespace = Join ids SP.
Proof.
  intros Hn H. destruct (Join_ends ids Hn H) as [(c & s & E & Hc) (s' & c' & E' & Hc')].
  unfold Trim. change (TrimLeft (SP :: Join ids SP) whitespace)
    with (TrimLeft (Join ids SP) whitespace).
  rewrite E, TrimLeft_head by exact Hc. rewrite <- E, E'.
  apply TrimRight_last, Hc'.
Qed.

Lemma Trim_whitespace ws :
  Forall (fun c => inCutset whitespace c = true) ws -> Trim ws whitespace = [].
Proof. intros H. unfold Trim. rewrite TrimLeft_all by exact H. reflexivity. Qed.

Lemma ToUpper_length s : List.length (ToUpper s) = List.length s.
Proof. apply length_map. Qed.

Lemma firstn_app_exact {A} (a b : list A) : firstn (List.length a) (a ++ b) = a.
Proof.
  rewrite firstn_app, Nat.sub_diag, firstn_all. cbn. apply List.app_nil_r.
Qed.

Lemma skipn_app_exact {A} (a b : list A) : skipn (List.length a) (a ++ b) = b.
Proof.
  rewrite skipn_app, Nat.sub_diag, skipn_all. reflexivity.
Qed.

(** The loop of [Search] passes over the replies that do not carry the
    keyword. *)
Lemma searchReplys_pass pre : forall l,
  Forall (fun p => carries (lit "SEARCH") (reply.origin p) = false) pre ->
  IMAPClient.searchReplys (pre ++ l) = IMAPClient.searchReplys l.
Proof.
  induction pre as [|p pre IH]; intros l H; [reflexivity|].
  inversion H as [|? ? Hp Hpre]; subst.
  cbn [app IMAPClient.searchReplys].
  change ((6 <=? len (reply.Origin p))
          && bytes_eqb (ToUpper (firstn 6 (reply.Origin p))) (lit "SEARCH"))
    with (carries (lit "SEARCH") (reply.origin p)).
  rewrite Hp. apply IH, Hpre.
Qed.

(** The loop of [Search] at a reply whose origin is a word that reads
    SEARCH, letter case apart, and then [rest]. *)
Lemma searchReplys_hit r l kw rest :
  ToUpper kw = lit "SEARCH" -> reply.origin r = kw ++ rest ->
  IMAPClient.searchReplys (r :: l) =
    let ids := Trim rest whitespace in
    if bytes_eqb ids [] then ([], None) else (Split ids SP, None).
Proof.
  intros Hkw Ho.
  assert (L : List.length kw = 6%nat)
    by (rewrite <- ToUpper_length, Hkw; reflexivity).
  cbn [IMAPClient.searchReplys]. unfold reply.Origin. rewrite Ho.
  replace (6 <=? len (kw ++ rest)) with true
    by (symmetry; apply Z.leb_le; unfold len; rewrite length_app; lia).
  replace (firstn 6 (kw ++ rest)) with kw
    by (rewrite <- L; symmetry; apply firstn_app_exact).
  replace (skipn 6 (kw ++ rest)) with rest
    by (rewrite <- L; symmetry; apply skipn_app_exact).
  rewrite Hkw. reflexivity.
Qed.

(** C8.  When the search command ends without error: if the first reply
    that carries the SEARCH keyword has, after the keyword, a space and
    identifiers separated by single spaces, [Search] returns these
    identifiers in order, without error; if it has nothing but trimmed bytes
    after the keyword, [Search] returns no identifier and no error; and if
    no reply carries the keyword, [Search] returns the error of the invalid
    response, which the second case does not. *)
Theorem Search_identifiers
  (c c' : IMAPClient.t) (flag : bytes) (resp : Response.t) :
  IMAPClient.Do c (lit "SEARCH " ++ flag) = (c', resp) ->
  Response.err resp = None ->
  (forall pre r post kw ids,
      Response.replys resp = pre ++ r :: post ->
      Forall (fun p => carries (lit "SEARCH") (reply.origin p) = false) pre ->
      ToUpper kw = lit "SEARCH" ->
      ids <> [] -> Forall identifier ids ->
      reply.origin r = kw ++ SP :: Join ids SP ->
      IMAPClient.Search c flag = (c', (ids, None)))
  /\ (forall pre r post kw ws,
      Response.replys resp = pre ++ r :: post ->
      Forall (fun p => carries (lit "SEARCH") (reply.origin p) = false) pre ->
      ToUpper kw = lit "SEARCH" ->
      Forall (fun b => inCutset whitespace b = true) ws ->
      reply.origin r = kw ++ ws ->
      IMAPClient.Search c flag = (c', ([], None)))
  /\ (Forall (fun p => carries (lit "SEARCH") (reply.origin p) = false)
             (Response.replys resp) ->
      IMAPClient.Search c flag =
        (c', ([], Some (errorString (lit "Invalid response")))))
  /\ (@nil bytes, @None error) <>
     ([], Some (errorString (lit "Invalid response"))).
Proof.
  intros HD He.
  assert (S : IMAPClient.Search c flag =
              (c', IMAPClient.searchReplys (Response.replys resp))).
  { unfold IMAPClient.Search. rewrite HD. unfold Response.Error, Response.Replys.
    rewrite He. reflexivity. }
  rewrite S. split; [|split; [|split]].
  - intros pre r post kw ids Hr Hpre Hkw Hn Hids Ho.
    rewrite Hr, (searchReplys_pass pre _ Hpre).
    rewrite (searchReplys_hit r post kw _ Hkw Ho). cbv zeta.
    rewrite (Trim_Join ids Hn Hids).
    destruct (bytes_eqb (Join ids SP) []) eqn:E.
    + apply bytes_eqb_eq in E.
      destruct (Join_ends ids Hn Hids) as [(x & s & E' & _) _].
      rewrite E in E'. discriminate.
    + rewrite Split_Join; [reflexivity|exact Hn|].
      eapply Forall_impl; [|exact Hids]. apply identifier_no_space.
  - intros pre r post kw ws Hr Hpre Hkw Hws Ho.
    rewrite Hr, (searchReplys_pass pre _ Hpre).
    rewrite (searchReplys_hit r post kw _ Hkw Ho). cbv zeta.
    rewrite (Trim_whitespace ws Hws). reflexivity.
  - intros Hall.
    rewrite <- (List.app_nil_r (Response.replys resp)).
    rewrite (searchReplys_pass _ [] Hall). reflexivity.
  - discriminate.
Qed.

Lemma Search_identifiers_witness :
  IMAPClient.Do search_client (lit "SEARCH " ++ lit "ALL") = search_done
  /\ Response.err (snd search_done) = None
  /\ IMAPClient.Search search_client (lit "ALL") =
       (fst search_done, ([lit "1"; lit "2"; lit "3"], None)).
Proof.
  assert (HD : IMAPClient.Do search_client (lit "SEARCH " ++ lit "ALL") =
               (fst search_done, snd search_done))
    by (vm_compute; reflexivity).
  assert (He : Response.err (snd search_done) = None) by reflexivity.
  split; [exact HD|]. split; [exact He|].
  refine (proj1 (Search_identifiers search_client (fst search_done) (lit "ALL")
                   (snd search_done) HD He)
            [] (reply.mk (lit "SEARCH 1 2 3") [] [] []) []
            (lit "SEARCH") [lit "1"; lit "2"; lit "3"] _ _ _ _ _ _).
  - reflexivity.
  - constructor.
  - reflexivity.
  - discriminate.
  - repeat constructor; discriminate.
  - reflexivity.
Defined.

(** ** Fetch *)

Lemma bytes_eqb_refl a : bytes_eqb a a = true.
Proof. apply bytes_eqb_eq. reflexivity. Qed.

Lemma bytes_eqb_neq a b : a <> b -> bytes_eqb a b = false.
Proof.
  intros H. destruct (bytes_eqb a b) eqn:E; [|reflexivity].
  apply bytes_eqb_eq in E. contradiction.
Qed.

Lemma Index_absent s c : ~ In c s -> Index s c = -1.
Proof.
  induction s as [|x s IH]; cbn; intros H; [reflexivity|].
  destruct (Ascii.eqb x c) eqn:E.
  - apply Ascii.eqb_eq in E. exfalso. auto.
  - rewrite IH by auto. reflexivity.
Qed.

Lemma sliceFrom_0 s : sliceFrom s 0 = Return s.
Proof.
  unfold sliceFrom. cbn [Z.leb Z.compare andb].
  replace (0 <=? len s) with true
    by (symmetry; apply Z.leb_le; unfold len; lia).
  reflexivity.
Qed.

(** One turn of the loop of [Fetch]: the reply is the one looked for, or
    its origin is the identifier and nothing more, which the slice after
    the identifier does not survive, or the loop goes on. *)
Lemma fetchReplys_step id r l :
  IMAPClient.fetchReplys id (r :: l) =
    if fetchMatches id (reply.origin r)
    then body <- sliceFrom (reply.content r)
                   (Index (reply.content r) LF + 1) ;;
         Return (body, None)
    else if bytes_eqb (reply.origin r) id
    then Panic "slice bounds out of range"
    else IMAPClient.fetchReplys id l.
Proof.
  cbn [IMAPClient.fetchReplys]. unfold reply.Origin, reply.Content, fetchMatches.
  set (org := reply.origin r).
  destruct (Z.ltb_spec (len org) (len id)) as [Hlt|Hge]; cbn [orb].
  - replace (len id + 1 <=? len org) with false
      by (symmetry; apply Z.leb_gt; lia).
    rewrite (bytes_eqb_neq org id); [reflexivity|].
    intros E. rewrite E in Hlt. lia.
  - destruct (bytes_eqb (firstn (List.length id) org) id) eqn:Hp;
      cbn [negb andb].
    + apply bytes_eqb_eq in Hp. unfold sliceFrom, bind.
      replace (0 <=? len id + 1) with true
        by (symmetry; apply Z.leb_le; unfold len; lia).
      cbn [andb].
      destruct (Z.leb_spec (len id + 1) (len org)) as [Hle|Hgt].
      * replace (Z.to_nat (len id + 1)) with (List.length id + 1)%nat
          by (unfold len; lia).
        change ((5 <=? len (skipn (List.length id + 1) org))
                && bytes_eqb (ToUpper (firstn 5 (skipn (List.length id + 1) org)))
                     (lit "FETCH"))
          with (carries (lit "FETCH") (skipn (List.length id + 1) org)).
        destruct (carries (lit "FETCH") (skipn (List.length id + 1) org));
          [reflexivity|].
        rewrite (bytes_eqb_neq org id); [reflexivity|].
        intros E. rewrite E in Hle. lia.
      * assert (E : org = id).
        { transitivity (firstn (List.length id) org); [|exact Hp].
          symmetry. apply firstn_all2. unfold len in *. lia. }
        rewrite (proj2 (bytes_eqb_eq org id) E). reflexivity.
    + rewrite andb_false_r. cbn [andb].
      rewrite (bytes_eqb_neq org id); [reflexivity|].
      intros E. rewrite E, firstn_all, bytes_eqb_refl in Hp. discriminate.
Qed.

Lemma fetchReplys_pass id pre : forall l,
  Forall (fun p => fetchMatches id (reply.origin p) = false
                   /\ reply.origin p <> id) pre ->
  IMAPClient.fetchReplys id (pre ++ l) = IMAPClient.fetchReplys id l.
Proof.
  induction pre as [|p pre IH]; intros l H; [reflexivity|].
  inversion H as [|? ? [Hm Hi] Hpre]; subst.
  cbn [app]. rewrite fetchReplys_step, Hm, (bytes_eqb_neq _ _ Hi).
  apply IH, Hpre.
Qed.

(** C10.  When the fetch command ends without error and the content of
    the first reply that matches (the identifier, one byte, the FETCH
    keyword) holds no line feed, [Fetch] returns that content whole and
    unchanged, without error: the line feed is looked for, not found, and
    the slice starts at zero. *)
Theorem Fetch_without_newline
  (c c' : IMAPClient.t) (id arg : bytes) (resp : Response.t)
  (pre post : list reply.t) (r : reply.t) :
  IMAPClient.Do c (lit "FETCH " ++ id ++ [SP] ++ arg) = (c', resp) ->
  Response.err resp = None ->
  Response.replys resp = pre ++ r :: post ->
  Forall (fun p => fetchMatches id (reply.origin p) = false
                   /\ reply.origin p <> id) pre ->
  fetchMatches id (reply.origin r) = true ->
  ~ In LF (reply.content r) ->
  IMAPClient.Fetch c id arg = Return (c', (reply.content r, None)).
Proof.
  intros HD He Hr Hpre Hm Hlf.
  unfold IMAPClient.Fetch. rewrite HD.
  unfold Response.Error, Response.Replys. rewrite He, Hr.
  rewrite (fetchReplys_pass id pre _ Hpre), fetchReplys_step, Hm.
  rewrite (Index_absent _ _ Hlf). change (-1 + 1) with 0.
  rewrite sliceFrom_0. reflexivity.
Qed.

Lemma Fetch_without_newline_witness :
  IMAPClient.Do fetch_client (lit "FETCH " ++ lit "4" ++ [SP] ++ lit "RFC822.TEXT")
    = fetch_done
  /\ IMAPClient.Fetch fetch_client (lit "4") (lit "RFC822.TEXT") =
       Return (fst fetch_done, (lit "hello", None)).
Proof.
  assert (HD : IMAPClient.Do fetch_client
                 (lit "FETCH " ++ lit "4" ++ [SP] ++ lit "RFC822.TEXT") =
               (fst fetch_done, snd fetch_done))
    by (vm_compute; reflexivity).
  split; [exact HD|].
  refine (Fetch_without_newline fetch_client (fst fetch_done) (lit "4")
            (lit "RFC822.TEXT") (snd fetch_done) []
            []
            (reply.mk (lit "4 FETCH (RFC822.TEXT {5}" ++ CRLF ++ lit "hello)")
                      (lit "RFC822.TEXT") (lit "5") (lit "hello"))
            HD _ _ _ _ _).
  - reflexivity.
  - reflexivity.
  - constructor.
  - reflexivity.
  - cbn. intros H. repeat (destruct H as [H|H]; [discriminate|]). exact H.
Defined.

(** ** GetMessage *)

Section GetMessageFacts.

Variable MIMEHeader : Type.
Variable ReadMIMEHeader : bytes -> MIMEHeader + error.

(** C9.  When the fetch of the headers ends without error and with no
    reply at all, [GetMessage] takes the first element of the empty list
    of replies, which is out of range, where [Fetch] on the same response
    returns the error of the invalid response. *)
Theorem GetMessage_no_reply
  (c c' : IMAPClient.t) (id : bytes) (resp : Response.t) :
  IMAPClient.Do c (lit "FETCH " ++ id ++ [SP] ++ RFC822Header) = (c', resp) ->
  Response.err resp = None ->
  Response.replys resp = [] ->
  IMAPClient.GetMessage MIMEHeader ReadMIMEHeader c id =
    Panic "index out of range [0] with length 0"
  /\ IMAPClient.Fetch c id RFC822Header =
       Return (c', ([], Some (errorString (lit "Invalid response")))).
Proof.
  intros HD He Hr. split.
  - unfold IMAPClient.GetMessage. rewrite HD.
    unfold Response.Error, Response.Replys. rewrite He, Hr. reflexivity.
  - unfold IMAPClient.Fetch. rewrite HD.
    unfold Response.Error, Response.Replys. rewrite He, Hr. reflexivity.
Qed.

End GetMessageFacts.

Lemma GetMessage_no_reply_witness :
  IMAPClient.Do status_only_client (lit "FETCH " ++ lit "4" ++ [SP] ++ RFC822Header)
    = status_only_done
  /\ Response.err (snd status_only_done) = None
  /\ Response.replys (snd status_only_done) = []
  /\ IMAPClient.GetMessage bytes (fun b => inl b) status_only_client (lit "4") =
       Panic "index out of range [0] with length 0".
Proof.
  assert (HD : IMAPClient.Do status_only_client
                 (lit "FETCH " ++ lit "4" ++ [SP] ++ RFC822Header) =
               (fst status_only_done, snd status_only_done))
    by (vm_compute; reflexivity).
  split; [exact HD|]. split; [reflexivity|]. split; [reflexivity|].
  exact (proj1 (GetMessage_no_reply bytes (fun b => inl b) status_only_client
                  (fst status_only_done) (lit "4") (snd status_only_done)
                  HD eq_refl eq_refl)).
Defined.

(** ** More on the parser: what [Feed] keeps *)

Lemma finish_fields r :
  Response.state (Response.finish r) = feedFinished
  /\ Response.replys (Response.finish r) = Response.replys r
  /\ Response.cur (Response.finish r) = Response.cur r
  /\ Response.buf (Response.finish r) = Response.buf r.
Proof.
  unfold Response.finish.
  repeat match goal with
         | |- context [match ?x with _ => _ end] => destruct x; cbn
         end; repeat split.
Qed.

Lemma feedByte_replys r i :
  exists more,
    Response.replys (fst (Response.feedByte r i)) = Response.replys r ++ more.
Proof.
  unfold Response.feedByte.
  destruct (Response.state r); repeat case_byte; cbn;
    try (exists []; rewrite List.app_nil_r; reflexivity);
    try (eexists; reflexivity).
  exists []. rewrite List.app_nil_r. apply finish_fields.
Qed.

(** X1.  [Feed] only ever appends to the list of replies: whatever the
    input and the state, the replies recorded before the call are still
    there after it, in order and unchanged, at the head of the list. *)
Theorem Feed_replys_append_only (r : Response.t) (input : bytes) :
  exists more,
    Response.replys (fst (Response.Feed r input)) = Response.replys r ++ more.
Proof.
  revert r. induction input as [|i input IH]; intros r.
  - exists []. cbn. rewrite List.app_nil_r. reflexivity.
  - cbn [Response.Feed]. destruct (feedByte_replys r i) as [m1 H1].
    destruct (Response.feedByte r i) as [r1 [ret|]]; cbn [fst] in *.
    + exists m1. exact H1.
    + destruct (IH r1) as [m2 H2]. exists (m1 ++ m2).
      rewrite H2, H1, List.app_assoc. reflexivity.
Qed.

Lemma feedByte_cases r i :
  Response.state r <> feedFinished ->
  match Response.feedByte r i with
  | (r1, None) => Response.state r1 <> feedFinished
  | (r1, Some ret) =>
      (ret = (true, None) /\ Response.state r1 = feedFinished)
      \/ (exists e, ret = (false, Some e)
                    /\ Response.state r1 <> feedFinished)
  end.
Proof.
  unfold Response.feedByte. intros H.
  destruct (Response.state r) eqn:S; try contradiction;
    repeat case_byte; cbn; rewrite ?S; try discriminate;
    try (left; split; [reflexivity|apply finish_fields]);
    try (right; eexists; split; [reflexivity|discriminate]).
Qed.

(** X2.  A call of [Feed] on a Response that is not finished returns
    [(true, nil)] exactly when it leaves the Response finished; any other
    return leaves it unfinished. *)
Theorem Feed_reports_completion
  (r r' : Response.t) (input : bytes) (ret : bool * option error) :
  Response.Feed r input = (r', ret) ->
  Response.state r <> feedFinished ->
  (ret = (true, None) <-> Response.state r' = feedFinished).
Proof.
  revert r. induction input as [|i input IH]; cbn [Response.Feed]; intros r H Hs.
  - inversion H; subst. split; [discriminate|contradiction].
  - pose proof (feedByte_cases r i Hs) as C.
    destruct (Response.feedByte r i) as [r1 [ret1|]].
    + inversion H; subst.
      destruct C as [[-> E]|[e [-> E]]]; split; try tauto; discriminate.
    + apply (IH r1 H C).
Qed.

Lemma Feed_reports_completion_witness :
  Response.Feed Response.NewResponse (List.concat fetch_chunks) =
    (fetch_response, (true, None))
  /\ Response.state Response.NewResponse <> feedFinished
  /\ Response.state fetch_response = feedFinished.
Proof.
  assert (H : Response.Feed Response.NewResponse (List.concat fetch_chunks) =
              (fetch_response, (true, None)))
    by (vm_compute; reflexivity).
  assert (Hs : Response.state Response.NewResponse <> feedFinished)
    by discriminate.
  split; [exact H|]. split; [exact Hs|].
  exact (proj1 (Feed_reports_completion _ _ _ _ H Hs) eq_refl).
Defined.

(** X3.  Until the status line has ended, a Response has no tag, no status
    text and no error: the three are assigned at the end of the status line
    and nowhere else. *)
Theorem unfinished_has_no_status (r : Response.t) :
  reachable r -> Response.state r <> feedFinished ->
  Response.id r = [] /\ Response.status r = [] /\ Response.err r = None.
Proof.
  intros Hr Hs. apply reachable_inv in Hr. unfold parser_inv in Hr.
  destruct (Response.state r); try exact Hr. contradiction.
Qed.

Lemma unfinished_has_no_status_witness :
  let r := fst (Response.Feed Response.NewResponse
                  (lit "* SEARCH 1 2 3" ++ CRLF ++ lit "a002 NO")) in
  reachable r
  /\ Response.state r <> feedFinished
  /\ Response.status r = [] /\ Response.err r = None.
Proof.
  cbv zeta.
  assert (Hr : reachable (fst (Response.Feed Response.NewResponse
                  (lit "* SEARCH 1 2 3" ++ CRLF ++ lit "a002 NO"))))
    by (apply reach_feed, reach_new).
  assert (Hs : Response.state (fst (Response.Feed Response.NewResponse
                  (lit "* SEARCH 1 2 3" ++ CRLF ++ lit "a002 NO")))
               <> feedFinished)
    by (vm_compute; discriminate).
  split; [exact Hr|]. split; [exact Hs|].
  exact (proj2 (unfinished_has_no_status _ Hr Hs)).
Defined.

(** ** The replies a Response records *)

Lemma snoc_not_nil {A} (l : list A) (x : A) : l ++ [x] <> [].
Proof. destruct l; discriminate. Qed.

Lemma replyOK_addOrigin c i : replyOK c -> replyOK (reply.addOrigin i c).
Proof.
  intros (_ & D & L). split; [apply snoc_not_nil|]. split; assumption.
Qed.

Lemma replyOK_addType c i : replyOK c -> replyOK (reply.addType i c).
Proof. intros (O & D & L). split; [exact O|]. split; assumption. Qed.

Lemma replyOK_new i : replyOK (reply.addOrigin i reply.newReply).
Proof.
  split; [discriminate|]. split; [constructor|]. left. split; reflexivity.
Qed.

Lemma feedByte_reply_inv r i :
  reply_inv r -> reply_inv (fst (Response.feedByte r i)).
Proof.
  unfold reply_inv, Response.feedByte. intros [HF HC].
  destruct (Response.state r) eqn:S; repeat case_byte;
    cbn -[replyOK digitsOnly]; rewrite ?S;
    try (split; [exact HF|]);
    try exact I;
    try exact HC;
    try (apply replyOK_addOrigin; exact HC);
    try apply replyOK_new.
  - split; [apply snoc_not_nil|apply HC].
  - split; [apply snoc_not_nil|].
    apply Forall_app. split; [apply HC|repeat constructor; assumption].
  - split; [apply snoc_not_nil|apply HC].
  - split; [apply snoc_not_nil|].
    apply Forall_app. split; [apply HC|repeat constructor; assumption].
  - split; [apply snoc_not_nil|apply HC].
  - split; [apply snoc_not_nil|]. split; [apply HC|].
    right. unfold reply.Length in *. cbn in *.
    match goal with
    | H : (_ =? _) = true |- _ => apply Z.eqb_eq in H; rewrite H
    end. assumption.
  - split; [apply snoc_not_nil|apply HC].
  - split; [apply snoc_not_nil|apply HC].
  - split; [|exact I]. apply Forall_app. split; [exact HF|].
    constructor; [exact HC|constructor].
  - destruct (finish_fields r) as (-> & -> & _). split; [exact HF|exact I].
Qed.

Lemma Feed_reply_inv input : forall r,
  reply_inv r -> reply_inv (fst (Response.Feed r input)).
Proof.
  induction input as [|i input IH]; intros r H; [exact H|].
  cbn [Response.Feed]. pose proof (feedByte_reply_inv r i H) as H1.
  destruct (Response.feedByte r i) as [r1 [ret|]]; [exact H1|].
  apply IH, H1.
Qed.

Lemma reachable_reply_inv r : reachable r -> reply_inv r.
Proof.
  induction 1 as [|r input _ IH].
  - split; [constructor|exact I].
  - apply Feed_reply_inv, IH.
Qed.

(** X4.  Every reply a Response has recorded has a non-empty origin, a
    length buffer of decimal digits only, and either no literal at all
    (empty length buffer, empty content) or a content of exactly the length
    that its length buffer parses to. *)
Theorem recorded_replies_are_framed (r : Response.t) (c : reply.t) :
  reachable r -> In c (Response.replys r) ->
  reply.origin c <> []
  /\ Forall (fun b => isDigit b = true) (reply.length_ c)
  /\ ((reply.length_ c = [] /\ reply.content c = [])
      \/ reply.Length c = Some (len (reply.content c))).
Proof.
  intros Hr Hin. apply reachable_reply_inv in Hr. destruct Hr as [HF _].
  rewrite Forall_forall in HF. exact (HF c Hin).
Qed.

Lemma recorded_replies_are_framed_witness :
  reachable fetch_response
  /\ In (reply.mk (lit "4 FETCH (RFC822.TEXT {5}" ++ CRLF ++ lit "hello)")
                  (lit "RFC822.TEXT") (lit "5") (lit "hello"))
        (Response.replys fetch_response)
  /\ reply.Length (reply.mk (lit "4 FETCH (RFC822.TEXT {5}" ++ CRLF ++ lit "hello)")
                            (lit "RFC822.TEXT") (lit "5") (lit "hello"))
     = Some 5.
Proof.
  assert (Hr : reachable fetch_response)
    by (exact (reach_feed Response.NewResponse (List.concat fetch_chunks)
                 reach_new)).
  assert (Hin : In (reply.mk (lit "4 FETCH (RFC822.TEXT {5}" ++ CRLF
                              ++ lit "hello)")
                      (lit "RFC822.TEXT") (lit "5") (lit "hello"))
                   (Response.replys fetch_response))
    by (left; reflexivity).
  split; [exact Hr|]. split; [exact Hin|].
  destruct (recorded_replies_are_framed _ _ Hr Hin) as (_ & _ & [[E _]|E]).
  - discriminate E.
  - exact E.
Defined.

Lemma isDigit_not_sign c :
  isDigit c = true -> Ascii.eqb c "-" = false /\ Ascii.eqb c "+" = false.
Proof.
  intros H. split.
  - destruct (Ascii.eqb c "-") eqn:E; [|reflexivity].
    apply Ascii.eqb_eq in E. subst. discriminate.
  - destruct (Ascii.eqb c "+") eqn:E; [|reflexivity].
    apply Ascii.eqb_eq in E. subst. discriminate.
Qed.

Lemma digitVal_range c : isDigit c = true -> 0 <= digitVal c <= 9.
Proof.
  unfold isDigit, digitVal, Ascii.leb, Ascii.compare.
  rewrite andb_true_iff. intros [H1 H2].
  change (N_of_ascii "0") with 48%N in H1.
  change (N_of_ascii "9") with 57%N in H2.
  destruct (N.compare_spec 48 (N_of_ascii c)); try discriminate;
    destruct (N.compare_spec (N_of_ascii c) 57); try discriminate; lia.
Qed.

Lemma parseDigits_total s : forall acc,
  Forall (fun b => isDigit b = true) s -> 0 <= acc ->
  exists v, parseDigits acc s = Some v /\ acc <= v.
Proof.
  induction s as [|c s IH]; intros acc H Hacc.
  - exists acc. split; [reflexivity|lia].
  - inversion H as [|? ? Hc Hs]; subst. cbn [parseDigits]. rewrite Hc.
    pose proof (digitVal_range c Hc).
    destruct (IH (10 * acc + digitVal c) Hs) as (v & -> & Hv); [lia|].
    exists v. split; [reflexivity|lia].
Qed.

(** [Atoi] on a buffer of digits: an error when there is no digit or when
    the number is above the largest [int]. *)
Lemma Atoi_digits s :
  Forall (fun b => isDigit b = true) s ->
  (Atoi s = None <->
   s = [] \/ exists v, parseDigits 0 s = Some v /\ maxInt < v).
Proof.
  intros H. destruct s as [|c s].
  - split; [left; reflexivity|reflexivity].
  - destruct (parseDigits_total (c :: s) 0 H) as (v & Hv & Hpos); [lia|].
    inversion H as [|? ? Hc Hs]; subst.
    destruct (isDigit_not_sign c Hc) as [Hm Hp].
    unfold Atoi. rewrite Hm, Hp, Hv.
    replace (minInt <=? v) with true
      by (symmetry; apply Z.leb_le; unfold minInt; lia).
    cbn [andb]. destruct (Z.leb_spec v maxInt) as [Hle|Hgt].
    + split; [discriminate|]. intros [E|(v' & E & Hlt)]; [discriminate|].
      inversion E. lia.
    + split; [|reflexivity]. intros _. right. exists v.
      split; [reflexivity|exact Hgt].
Qed.

(** X5.  In the content state, the byte fed next raises the error of the
    invalid length exactly when the length buffer holds no digit or holds
    a number above the largest [int]; the token can fail in no other way,
    because the buffer only ever holds decimal digits. *)
Theorem framing_error_iff (r : Response.t) (b : byte) :
  reachable r -> Response.state r = feedReplyContent ->
  (snd (Response.Feed r [b]) =
     (false, Some (errorString (lit
        "Parse response error, reply need a valid length number")))
   <-> reply.length_ (Response.cur r) = []
       \/ exists v, parseDigits 0 (reply.length_ (Response.cur r)) = Some v
                    /\ maxInt < v).
Proof.
  intros Hr Hs. apply reachable_reply_inv in Hr. destruct Hr as [_ HC].
  rewrite Hs in HC. destruct HC as [_ HD].
  rewrite <- (Atoi_digits _ HD).
  cbn [Response.Feed]. rewrite (feedByte_content r b Hs).
  destruct (Atoi (reply.length_ (Response.cur r))) as [n|].
  - destruct (_ =? _); cbn; split; discriminate.
  - cbn. split; reflexivity.
Qed.

Lemma framing_error_iff_witness :
  let r := fst (Response.Feed Response.NewResponse
                  (lit "* 1 FETCH (BODY {99999999999999999999}" ++ CRLF)) in
  reachable r
  /\ Response.state r = feedReplyContent
  /\ snd (Response.Feed r (lit "h")) =
       (false, Some (errorString (lit
          "Parse response error, reply need a valid length number"))).
Proof.
  cbv zeta.
  assert (Hr : reachable (fst (Response.Feed Response.NewResponse
                  (lit "* 1 FETCH (BODY {99999999999999999999}" ++ CRLF))))
    by (apply reach_feed, reach_new).
  assert (Hs : Response.state (fst (Response.Feed Response.NewResponse
                  (lit "* 1 FETCH (BODY {99999999999999999999}" ++ CRLF)))
               = feedReplyContent)
    by (vm_compute; reflexivity).
  split; [exact Hr|]. split; [exact Hs|].
  apply (proj2 (framing_error_iff _ "h"%char Hr Hs)).
  right. exists 99999999999999999999. split; [vm_compute; reflexivity|].
  vm_compute. reflexivity.
Defined.

(** ** Responses without literal: what is rendered is what is parsed *)

Lemma eqb_neq a b : a <> b -> Ascii.eqb a b = false.
Proof.
  intros H. destruct (Ascii.eqb a b) eqn:E; [|reflexivity].
  apply Ascii.eqb_eq in E. contradiction.
Qed.

Lemma not_in_cons {A} (x a : A) (l : list A) :
  ~ In x (a :: l) -> a <> x /\ ~ In x l.
Proof. intros H. split; intros E; apply H; [left|right]; assumption. Qed.

(** In the reply state, bytes other than the carriage return and the
    opening parenthesis go to the origin and change nothing else. *)
Lemma Feed_plain s : forall r more,
  Response.state r = feedReply -> ~ In CR s -> ~ In "("%char s ->
  Response.Feed r (s ++ more) = Response.Feed (withOrigin s r) more.
Proof.
  induction s as [|c s IH]; intros r more Hs H1 H2.
  - rewrite withOrigin_nil. reflexivity.
  - apply not_in_cons in H1, H2. destruct H1 as [N1 H1], H2 as [N2 H2].
    cbn [app Response.Feed]. unfold Response.feedByte. rewrite Hs.
    rewrite (eqb_neq c CR N1), (eqb_neq c "(" N2).
    rewrite IH; [|exact Hs|exact H1|exact H2].
    f_equal. open_response r. unfold withOrigin, Response.setCur. cbn.
    rewrite <- List.app_assoc. reflexivity.
Qed.

Lemma Feed_untagged o r more :
  Response.state r = feedInit -> plainOrigin o ->
  Response.Feed r (untaggedLine o ++ more) =
    Response.Feed (recordReply o r) more.
Proof.
  intros Hs (Hne & Hsp & Hcr & Hpar).
  destruct o as [|c s]; [contradiction|].
  assert (Nsp : c <> SP) by (intros ->; apply Hsp; reflexivity).
  apply not_in_cons in Hcr, Hpar.
  destruct Hcr as [_ Hcr], Hpar as [_ Hpar].
  unfold untaggedLine.
  replace (("*"%char :: SP :: (c :: s) ++ CRLF) ++ more)
    with ("*"%char :: SP :: c :: (s ++ CR :: LF :: more))
    by (cbn; rewrite <- List.app_assoc; reflexivity).
  cbn [Response.Feed]. unfold Response.feedByte at 1. rewrite Hs.
  change (Ascii.eqb "*" "*") with true. cbn iota.
  cbn [Response.Feed]. unfold Response.feedByte at 1.
  cbn [Response.state Response.setState].
  change (negb (Ascii.eqb SP SP)) with false. cbn iota.
  cbn [Response.Feed]. unfold Response.feedByte at 1.
  cbn [Response.state Response.setState].
  rewrite (eqb_neq c SP Nsp). cbn [negb].
  rewrite Feed_plain; [|reflexivity|exact Hcr|exact Hpar].
  cbn [Response.Feed]. unfold Response.feedByte at 1.
  cbn [Response.state Response.setState withOrigin Response.setCur].
  change (Ascii.eqb CR CR) with true. cbn iota.
  unfold Response.feedByte at 1.
  cbn [Response.state Response.setState withOrigin Response.setCur].
  change (Ascii.eqb LF LF) with true. cbn iota.
  f_equal.
Qed.

Lemma Feed_untagged_all origins : forall r more,
  Response.state r = feedInit -> Forall plainOrigin origins ->
  Response.Feed r (List.concat (map untaggedLine origins) ++ more) =
    Response.Feed (fold_left (fun r o => recordReply o r) origins r) more.
Proof.
  induction origins as [|o origins IH]; intros r more Hs H; [reflexivity|].
  inversion H as [|? ? Ho Hos]; subst.
  cbn [map List.concat fold_left]. rewrite <- List.app_assoc.
  rewrite (Feed_untagged o r _ Hs Ho). apply IH; [reflexivity|exact Hos].
Qed.

Lemma last_cons {A} (l : list A) : forall a d, last (a :: l) d = last l a.
Proof.
  induction l as [|x l IH]; intros a d; [reflexivity|].
  change (last (a :: x :: l) d) with (last (x :: l) d).
  rewrite (IH x d), (IH x a). reflexivity.
Qed.

Lemma recordReply_all origins : forall r,
  Response.state r = feedInit -> Response.buf r = [] ->
  fold_left (fun r o => recordReply o r) origins r =
    Response.mk (Response.id r) (Response.status r) (Response.err r)
      (Response.replys r ++ map plainReply origins) [] feedInit
      (Response.parenthesisCount r)
      (last (map plainReply origins) (Response.cur r)).
Proof.
  induction origins as [|o origins IH]; intros r Hs Hb.
  - cbn. rewrite List.app_nil_r. destruct r; cbn in *; subst. reflexivity.
  - cbn [fold_left]. rewrite IH by reflexivity.
    cbn [recordReply Response.id Response.status Response.err Response.replys
         Response.parenthesisCount Response.cur map].
    rewrite <- List.app_assoc, last_cons. reflexivity.
Qed.

(** In the status line, bytes other than the carriage return are kept. *)
Lemma Feed_status_run s : forall r more,
  Response.state r = feedStatusLine -> ~ In CR s ->
  Response.Feed r (s ++ more) =
    Response.Feed (Response.setBuf (Response.buf r ++ s) r) more.
Proof.
  induction s as [|c s IH]; intros r more Hs H.
  - rewrite List.app_nil_r. destruct r; reflexivity.
  - apply not_in_cons in H. destruct H as [N H].
    cbn [app Response.Feed]. unfold Response.feedByte. rewrite Hs.
    rewrite (eqb_neq c CR N). rewrite IH; [|exact Hs|exact H].
    f_equal. destruct r; unfold Response.setBuf; cbn.
    rewrite <- List.app_assoc. reflexivity.
Qed.

Lemma not_in_app {A} (x : A) (a b : list A) :
  ~ In x a -> ~ In x b -> ~ In x (a ++ b).
Proof. intros Ha Hb H. apply in_app_or in H. tauto. Qed.

Lemma finish_plain r tag status :
  ~ In SP tag ->
  Response.buf r = tag ++ SP :: status -> Response.err r = None ->
  Response.finish r =
    Response.mk tag status
      (if startsOK status then None else Some (errorString status))
      (Response.replys r) (tag ++ SP :: status) feedFinished
      (Response.parenthesisCount r) (Response.cur r).
Proof.
  intros Hsp Hb He. destruct r as [i s e l b st p c]. cbn in Hb, He. subst.
  unfold Response.finish. rewrite SplitN_2. cbn -[firstn lit len].
  rewrite (cut_app SP tag status Hsp). cbn -[firstn lit len].
  unfold startsOK.
  destruct ((len status <? 3) || negb (bytes_eqb (firstn 3 status) (lit "OK ")));
    reflexivity.
Qed.

Lemma Feed_status_end r :
  Response.state r = feedStatusLine ->
  Response.Feed r CRLF =
    (Response.finish (Response.setState feedStatusLineMeet0d r), (true, None)).
Proof.
  intros Hs. unfold CRLF. cbn [Response.Feed].
  unfold Response.feedByte at 1. rewrite Hs.
  change (Ascii.eqb CR CR) with true. cbn iota.
  unfold Response.feedByte. cbn [Response.state Response.setState].
  change (Ascii.eqb LF LF) with true. reflexivity.
Qed.

Lemma Feed_statusLine r tag status :
  Response.state r = feedInit -> Response.buf r = [] ->
  Response.err r = None -> plainStatus tag status ->
  Response.Feed r (statusLine tag status) =
    (Response.mk tag status
       (if startsOK status then None else Some (errorString status))
       (Response.replys r) (tag ++ SP :: status) feedFinished
       (Response.parenthesisCount r) (Response.cur r),
     (true, None)).
Proof.
  intros Hs Hb He (Hstar & Hsp & Hcr1 & Hcr2).
  unfold statusLine.
  assert (L : exists b s, tag ++ SP :: status = b :: s
                          /\ b <> "*"%char /\ ~ In CR (b :: s)).
  { assert (Hcr : ~ In CR (tag ++ SP :: status)).
    { apply not_in_app; [exact Hcr1|].
      intros [E|E]; [discriminate|contradiction]. }
    destruct tag as [|b t].
    - exists SP, status. split; [reflexivity|]. split; [discriminate|exact Hcr].
    - exists b, (t ++ SP :: status). split; [reflexivity|].
      split; [|exact Hcr]. intros ->. apply Hstar. reflexivity. }
  destruct L as (b & s & E & Nb & Hcr).
  replace (tag ++ SP :: status ++ CRLF) with (b :: s ++ CRLF)
    by (change (b :: s ++ CRLF) with ((b :: s) ++ CRLF);
        rewrite <- E, <- List.app_assoc; reflexivity).
  apply not_in_cons in Hcr. destruct Hcr as [_ Hcr].
  cbn [Response.Feed]. unfold Response.feedByte at 1. rewrite Hs.
  rewrite (eqb_neq b "*" Nb).
  rewrite Feed_status_run; [|reflexivity|exact Hcr].
  rewrite Feed_status_end by reflexivity.
  rewrite (finish_plain _ tag status Hsp); [reflexivity| |exact He].
  cbn [Response.buf]. rewrite Hb. exact (eq_sym E).
Qed.

(** X6.  A response made of untagged lines without literal and of a status
    line is parsed into exactly what it was rendered from: the texts of the
    lines are the origins of the replies, in order, with empty type, length
    and content; the tag and the status text are those of the status line;
    the error is nil when the status text starts with OK and a space, and
    the status text otherwise. *)
Theorem Feed_render (origins : list bytes) (tag status : bytes) :
  Forall plainOrigin origins -> plainStatus tag status ->
  Response.Feed Response.NewResponse (render origins tag status) =
    (parsed origins tag status, (true, None)).
Proof.
  intros Ho Hst. unfold render.
  rewrite (Feed_untagged_all origins Response.NewResponse _ eq_refl Ho).
  rewrite (recordReply_all origins Response.NewResponse eq_refl eq_refl).
  rewrite Feed_statusLine; [reflexivity|reflexivity|reflexivity|reflexivity|exact Hst].
Qed.

Lemma Feed_render_witness :
  Forall plainOrigin [lit "SEARCH 1 2 3"; lit "5 EXISTS"]
  /\ plainStatus (lit "a002") (lit "NO [TRYCREATE] no such mailbox")
  /\ Response.Feed Response.NewResponse
       (lit "* SEARCH 1 2 3" ++ CRLF ++ lit "* 5 EXISTS" ++ CRLF
        ++ lit "a002 NO [TRYCREATE] no such mailbox" ++ CRLF) =
     (parsed [lit "SEARCH 1 2 3"; lit "5 EXISTS"] (lit "a002")
             (lit "NO [TRYCREATE] no such mailbox"), (true, None)).
Proof.
  assert (Ho : Forall plainOrigin [lit "SEARCH 1 2 3"; lit "5 EXISTS"]).
  { repeat constructor; try discriminate;
      cbn; intros H; repeat (destruct H as [H|H]; [discriminate|]); exact H. }
  assert (Hs : plainStatus (lit "a002") (lit "NO [TRYCREATE] no such mailbox")).
  { repeat split; try discriminate;
      cbn; intros H; repeat (destruct H as [H|H]; [discriminate|]); exact H. }
  split; [exact Ho|]. split; [exact Hs|].
  exact (Feed_render _ _ _ Ho Hs).
Defined.

(** ** The read loop of [Do] on a whole response *)

Lemma pump_finishes chunks : forall later b r r1,
  Response.Feed r (List.concat chunks) = (r1, (true, None)) ->
  snd (IMAPClient.pump (map inl chunks ++ later) b r) = r1.
Proof.
  induction chunks as [|c cs IH]; intros later b r r1 H; [discriminate|].
  cbn [List.concat] in H. rewrite Feed_app in H.
  cbn [map app IMAPClient.pump].
  destruct (Response.Feed r c) as [r' [[|] [e|]]] eqn:E; cbn [snd];
    try discriminate.
  - inversion H. reflexivity.
  - apply IH, H.
Qed.

Lemma Do_response c cmd :
  writable (IMAPClient.conn_ c) ->
  snd (IMAPClient.Do c cmd) =
    snd (IMAPClient.pump (conn.incoming (IMAPClient.conn_ c))
           (IMAPClient.buf c) Response.NewResponse).
Proof.
  unfold writable, IMAPClient.Do, conn.Write. intros H.
  destruct (conn.outcomes (IMAPClient.conn_ c)) as [|[e|] rest];
    [|contradiction|]; cbn [conn.incoming];
    destruct (IMAPClient.pump _ _ _) as [[rs b] ret]; reflexivity.
Qed.

(** X7.  When the write of the command succeeds and the reads that follow
    deliver, cut at any places, a response made of untagged lines without
    literal and of a status line, [Do] returns the Response parsed from
    it, whatever the command was: the tag on the status line is recorded
    and is not compared with the tag of the command. *)
Theorem Do_render
  (c : IMAPClient.t) (cmd : bytes) (chunks : list bytes)
  (later : list (bytes + error)) (origins : list bytes) (tag status : bytes) :
  writable (IMAPClient.conn_ c) ->
  conn.incoming (IMAPClient.conn_ c) = map inl chunks ++ later ->
  List.concat chunks = render origins tag status ->
  Forall plainOrigin origins -> plainStatus tag status ->
  snd (IMAPClient.Do c cmd) = parsed origins tag status.
Proof.
  intros Hw Hin Hc Ho Hst.
  rewrite (Do_response c cmd Hw), Hin.
  apply pump_finishes. rewrite Hc. apply Feed_render; assumption.
Qed.

Lemma Do_render_witness :
  writable (IMAPClient.conn_ two_command_client)
  /\ snd (IMAPClient.Do two_command_client (lit "NOOP")) =
       parsed [] (lit "a001") (lit "OK done").
Proof.
  assert (Hw : writable (IMAPClient.conn_ two_command_client)) by exact I.
  split; [exact Hw|].
  refine (Do_render two_command_client (lit "NOOP")
            [lit "a001 OK done" ++ CRLF]
            [inl (lit "* SEARCH 1 2 3" ++ CRLF ++ lit "a002 OK done" ++ CRLF)]
            [] (lit "a001") (lit "OK done") Hw eq_refl eq_refl _ _).
  - constructor.
  - repeat split; try discriminate;
      cbn; intros H; repeat (destruct H as [H|H]; [discriminate|]); exact H.
Defined.

(** ** What a nil error of [Do] means *)

Lemma Feed_reports_completion_aux input : forall r,
  Response.state r <> feedFinished ->
  (snd (Response.Feed r input) = (true, None)
   <-> Response.state (fst (Response.Feed r input)) = feedFinished).
Proof.
  induction input as [|i input IH]; cbn [Response.Feed]; intros r Hs.
  - cbn. split; [discriminate|contradiction].
  - pose proof (feedByte_cases r i Hs) as C.
    destruct (Response.feedByte r i) as [r1 [ret1|]]; cbn [fst snd].
    + destruct C as [[-> E]|[e [-> E]]]; split; try tauto; discriminate.
    + apply (IH r1 C).
Qed.

Lemma pump_success rs : forall b r,
  parser_inv r -> Response.state r <> feedFinished ->
  Response.err (snd (IMAPClient.pump rs b r)) = None ->
  Response.state (snd (IMAPClient.pump rs b r)) = feedFinished
  /\ firstn 3 (Response.status (snd (IMAPClient.pump rs b r))) = lit "OK ".
Proof.
  induction rs as [|[chunk|e] rs IH]; intros b r Hinv Hs;
    cbn [IMAPClient.pump snd]; try discriminate.
  pose proof (Feed_inv chunk r Hinv) as Hinv'.
  pose proof (Feed_reports_completion_aux chunk r Hs) as Hc.
  destruct (Response.Feed r chunk) as [r' [[|] [e|]]];
    cbn [fst snd] in *; try discriminate.
  - intros He. assert (Hf : Response.state r' = feedFinished) by (apply Hc; reflexivity).
    split; [exact Hf|]. unfold parser_inv in Hinv'. rewrite Hf in Hinv'.
    apply Hinv', He.
  - apply IH; [exact Hinv'|]. intros Hf. apply Hc in Hf. discriminate.
Qed.

Lemma Do_success_aux c cmd :
  Response.err (snd (IMAPClient.Do c cmd)) = None ->
  Response.state (snd (IMAPClient.Do c cmd)) = feedFinished
  /\ firstn 3 (Response.status (snd (IMAPClient.Do c cmd))) = lit "OK ".
Proof.
  unfold IMAPClient.Do, conn.Write.
  destruct (conn.outcomes (IMAPClient.conn_ c)) as [|[e|] rest];
    cbn [conn.incoming snd]; try discriminate;
    pose proof (pump_success (conn.incoming (IMAPClient.conn_ c))
                  (IMAPClient.buf c) Response.NewResponse) as P;
    destruct (IMAPClient.pump _ _ _) as [[rs b] ret]; cbn [snd] in *;
    intros He; apply P; try exact He; try discriminate;
    cbn; auto.
Qed.

(** X8.  [Do] returns a Response with a nil error only when the status
    line of the response has been read to its end and its status text
    starts with OK and a space: a failed write, a failed read, the end of
    the stream, a framing error and any other status all leave an error. *)
Theorem Do_success_means_OK (c : IMAPClient.t) (cmd : bytes) :
  Response.Error (snd (IMAPClient.Do c cmd)) = None ->
  Response.state (snd (IMAPClient.Do c cmd)) = feedFinished
  /\ firstn 3 (Response.Status (snd (IMAPClient.Do c cmd))) = lit "OK ".
Proof. exact (Do_success_aux c cmd). Qed.

Lemma Do_success_means_OK_witness :
  Response.Error (snd (IMAPClient.Do search_client (lit "SEARCH ALL"))) = None
  /\ Response.state (snd (IMAPClient.Do search_client (lit "SEARCH ALL")))
     = feedFinished
  /\ firstn 3 (Response.Status
                 (snd (IMAPClient.Do search_client (lit "SEARCH ALL"))))
     = lit "OK ".
Proof.
  assert (H : Response.Error
                (snd (IMAPClient.Do search_client (lit "SEARCH ALL"))) = None)
    by (vm_compute; reflexivity).
  exact (conj H (Do_success_means_OK search_client (lit "SEARCH ALL") H)).
Defined.

(** ** More on [Fetch] *)

Lemma Index_range s c : -1 <= Index s c < len s.
Proof.
  induction s as [|x s IH]; cbn [Index].
  - change (len (@nil ascii)) with 0. lia.
  - assert (L : len (x :: s) = 1 + len s)
      by (unfold len; cbn [List.length]; lia).
    rewrite L. assert (0 <= len s) by (unfold len; lia).
    destruct (Ascii.eqb x c); [lia|].
    destruct (Z.ltb_spec (Index s c) 0); lia.
Qed.

Lemma Index_first a c b : ~ In c a -> Index (a ++ c :: b) c = len a.
Proof.
  induction a as [|x a IH]; intros H.
  - cbn. rewrite Ascii.eqb_refl. reflexivity.
  - apply not_in_cons in H. destruct H as [N H].
    cbn [app Index]. rewrite (eqb_neq x c N), (IH H).
    assert (L : len (x :: a) = 1 + len a)
      by (unfold len; cbn [List.length]; lia).
    rewrite L. assert (0 <= len a) by (unfold len; lia).
    destruct (Z.ltb_spec (len a) 0); lia.
Qed.

Lemma sliceFrom_app a b : sliceFrom (a ++ b) (len a) = Return b.
Proof.
  unfold sliceFrom.
  replace (0 <=? len a) with true
    by (symmetry; apply Z.leb_le; unfold len; lia).
  replace (len a <=? len (a ++ b)) with true
    by (symmetry; apply Z.leb_le; rewrite len_app; unfold len; lia).
  cbn [andb]. unfold len. rewrite Nat2Z.id, skipn_app_exact. reflexivity.
Qed.

(** X9.  When the fetch command ends without error and the content of
    the first reply that matches holds a line feed, [Fetch] returns what
    follows the first line feed of the content, and nothing of what is
    before it. *)
Theorem Fetch_after_newline
  (c c' : IMAPClient.t) (id arg : bytes) (resp : Response.t)
  (pre post : list reply.t) (r : reply.t) (a b : bytes) :
  IMAPClient.Do c (lit "FETCH " ++ id ++ [SP] ++ arg) = (c', resp) ->
  Response.err resp = None ->
  Response.replys resp = pre ++ r :: post ->
  Forall (fun p => fetchMatches id (reply.origin p) = false
                   /\ reply.origin p <> id) pre ->
  fetchMatches id (reply.origin r) = true ->
  reply.content r = a ++ LF :: b -> ~ In LF a ->
  IMAPClient.Fetch c id arg = Return (c', (b, None)).
Proof.
  intros HD He Hr Hpre Hm Hc Hlf.
  unfold IMAPClient.Fetch. rewrite HD.
  unfold Response.Error, Response.Replys. rewrite He, Hr.
  rewrite (fetchReplys_pass id pre _ Hpre), fetchReplys_step, Hm, Hc.
  rewrite (Index_first a LF b Hlf).
  replace (a ++ LF :: b) with ((a ++ [LF]) ++ b)
    by (rewrite <- List.app_assoc; reflexivity).
  replace (len a + 1) with (len (a ++ [LF]))
    by (rewrite len_app; reflexivity).
  rewrite sliceFrom_app. reflexivity.
Qed.

Lemma Fetch_after_newline_witness :
  IMAPClient.Do header_client (lit "FETCH " ++ lit "4" ++ [SP] ++ lit "BODY[TEXT]")
    = header_done
  /\ IMAPClient.Fetch header_client (lit "4") (lit "BODY[TEXT]") =
       Return (fst header_done, (lit "two" ++ [LF], None)).
Proof.
  assert (HD : IMAPClient.Do header_client
                 (lit "FETCH " ++ lit "4" ++ [SP] ++ lit "BODY[TEXT]") =
               (fst header_done, snd header_done))
    by (vm_compute; reflexivity).
  split; [exact HD|].
  refine (Fetch_after_newline header_client (fst header_done) (lit "4")
            (lit "BODY[TEXT]") (snd header_done) [] []
            (reply.mk (lit "4 FETCH (BODY[TEXT] {9}" ++ CRLF
                       ++ lit "one" ++ CRLF ++ lit "two" ++ [LF] ++ lit ")")
                      (lit "BODY[TEXT]") (lit "9")
                      (lit "one" ++ CRLF ++ lit "two" ++ [LF]))
            (lit "one" ++ [CR]) (lit "two" ++ [LF])
            HD _ _ _ _ _ _).
  - reflexivity.
  - reflexivity.
  - constructor.
  - reflexivity.
  - reflexivity.
  - cbn. intros H. repeat (destruct H as [H|H]; [discriminate|]). exact H.
Defined.

Lemma fetchReplys_panics id l :
  (exists msg, IMAPClient.fetchReplys id l = Panic msg) <->
  (exists pre r post,
      l = pre ++ r :: post
      /\ Forall (fun p => fetchMatches id (reply.origin p) = false
                          /\ reply.origin p <> id) pre
      /\ reply.origin r = id).
Proof.
  split.
  - induction l as [|r l IH]; intros [msg H]; [discriminate|].
    rewrite fetchReplys_step in H.
    destruct (fetchMatches id (reply.origin r)) eqn:Hm.
    + exfalso. unfold sliceFrom in H.
      pose proof (Index_range (reply.content r) LF) as R.
      replace (0 <=? Index (reply.content r) LF + 1) with true in H
        by (symmetry; apply Z.leb_le; lia).
      replace (Index (reply.content r) LF + 1 <=? len (reply.content r))
        with true in H by (symmetry; apply Z.leb_le; lia).
      discriminate.
    + destruct (bytes_eqb (reply.origin r) id) eqn:Hi.
      * apply bytes_eqb_eq in Hi. exists [], r, l.
        split; [reflexivity|]. split; [constructor|exact Hi].
      * destruct (IH (ex_intro _ msg H)) as (pre & r' & post & -> & Hp & Ho).
        exists (r :: pre), r', post. split; [reflexivity|].
        split; [|exact Ho]. constructor; [|exact Hp].
        split; [exact Hm|]. intros E. rewrite E, bytes_eqb_refl in Hi.
        discriminate.
  - intros (pre & r & post & -> & Hp & Ho).
    rewrite (fetchReplys_pass id pre _ Hp), fetchReplys_step.
    replace (fetchMatches id (reply.origin r)) with false.
    + rewrite Ho, bytes_eqb_refl. eexists. reflexivity.
    + symmetry. unfold fetchMatches. rewrite Ho.
      replace (len id + 1 <=? len id) with false
        by (symmetry; apply Z.leb_gt; lia).
      reflexivity.
Qed.

(** X10.  When the fetch command ends without error, [Fetch] panics (a
    slice out of range) exactly when, before any matching reply, there is
    a reply whose origin is the identifier and nothing more; in every other
    case it returns, with the content or with the error of the invalid
    response. *)
Theorem Fetch_panics_iff_bare_id
  (c c' : IMAPClient.t) (id arg : bytes) (resp : Response.t) :
  IMAPClient.Do c (lit "FETCH " ++ id ++ [SP] ++ arg) = (c', resp) ->
  Response.err resp = None ->
  ((exists msg, IMAPClient.Fetch c id arg = Panic msg) <->
   (exists pre r post,
      Response.replys resp = pre ++ r :: post
      /\ Forall (fun p => fetchMatches id (reply.origin p) = false
                          /\ reply.origin p <> id) pre
      /\ reply.origin r = id)).
Proof.
  intros HD He. rewrite <- fetchReplys_panics.
  unfold IMAPClient.Fetch. rewrite HD.
  unfold Response.Error, Response.Replys. rewrite He.
  destruct (IMAPClient.fetchReplys id (Response.replys resp)) as [res|msg];
    cbn [bind]; split; intros [m H]; try discriminate; exists msg; reflexivity.
Qed.

Lemma Fetch_panics_iff_bare_id_witness :
  IMAPClient.Do bare_id_client (lit "FETCH " ++ lit "4" ++ [SP] ++ RFC822Text)
    = bare_id_done
  /\ Response.err (snd bare_id_done) = None
  /\ exists msg, IMAPClient.Fetch bare_id_client (lit "4") RFC822Text = Panic msg.
Proof.
  assert (HD : IMAPClient.Do bare_id_client
                 (lit "FETCH " ++ lit "4" ++ [SP] ++ RFC822Text) =
               (fst bare_id_done, snd bare_id_done))
    by (vm_compute; reflexivity).
  assert (He : Response.err (snd bare_id_done) = None) by reflexivity.
  split; [exact HD|]. split; [exact He|].
  apply (proj2 (Fetch_panics_iff_bare_id bare_id_client (fst bare_id_done)
                  (lit "4") RFC822Text (snd bare_id_done) HD He)).
  exists [], (reply.mk (lit "4") [] [] []), [].
  split; [reflexivity|]. split; [constructor|reflexivity].
Defined.

(** ** More on [Search] *)

Lemma Join_cons c p ps sep : Join ((c :: p) :: ps) sep = c :: Join (p :: ps) sep.
Proof. destruct ps; reflexivity. Qed.

Lemma Join_Split s sep : Join (Split s sep) sep = s.
Proof.
  induction s as [|c s IH]; [reflexivity|]. cbn [Split].
  destruct (Ascii.eqb c sep) eqn:E.
  - apply Ascii.eqb_eq in E. subst c.
    destruct (Split s sep) as [|p ps] eqn:S.
    + exfalso. exact (Split_not_nil s sep S).
    + change (Join ([] :: p :: ps) sep) with (sep :: Join (p :: ps) sep).
      rewrite IH. reflexivity.
  - destruct (Split s sep) as [|p ps] eqn:S.
    + exfalso. exact (Split_not_nil s sep S).
    + rewrite Join_cons, IH. reflexivity.
Qed.

Lemma Split_pieces s sep : Forall (fun p => ~ In sep p) (Split s sep).
Proof.
  induction s as [|c s IH]; cbn [Split].
  - constructor; [intros []|constructor].
  - destruct (Ascii.eqb c sep) eqn:E.
    + constructor; [intros []|exact IH].
    + destruct (Split s sep) as [|p ps].
      * constructor; [|constructor]. intros [H|[]]. subst.
        rewrite Ascii.eqb_refl in E. discriminate.
      * inversion IH as [|? ? Hp Hps]; subst. constructor; [|exact Hps].
        intros [H|H]; [|exact (Hp H)]. subst.
        rewrite Ascii.eqb_refl in E. discriminate.
Qed.

Lemma searchReplys_carries r l :
  carries (lit "SEARCH") (reply.origin r) = true ->
  exists ids,
    IMAPClient.searchReplys (r :: l) = (ids, None)
    /\ Join ids SP = Trim (skipn 6 (reply.origin r)) whitespace
    /\ Forall (fun x => ~ In SP x) ids.
Proof.
  intros H. cbn [IMAPClient.searchReplys].
  change ((6 <=? len (reply.Origin r))
          && bytes_eqb (ToUpper (firstn 6 (reply.Origin r))) (lit "SEARCH"))
    with (carries (lit "SEARCH") (reply.origin r)).
  rewrite H. cbv zeta.
  change [SP; TAB; LF; CR] with whitespace. unfold reply.Origin.
  destruct (bytes_eqb (Trim (skipn 6 (reply.origin r)) whitespace) []) eqn:E.
  - apply bytes_eqb_eq in E. exists []. rewrite E.
    split; [reflexivity|]. split; [reflexivity|constructor].
  - eexists. split; [reflexivity|]. split; [apply Join_Split|apply Split_pieces].
Qed.

(** X11.  When the search command ends without error and some reply
    carries the SEARCH keyword, [Search] returns without error, and the
    identifiers it returns, joined by single spaces, are the text that
    follows the keyword in the first such reply, trimmed of spaces, tabs
    and line ends: nothing of it is lost, and no identifier holds a space. *)
Theorem Search_keeps_the_text
  (c c' : IMAPClient.t) (flag : bytes) (resp : Response.t)
  (pre post : list reply.t) (r : reply.t) :
  IMAPClient.Do c (lit "SEARCH " ++ flag) = (c', resp) ->
  Response.err resp = None ->
  Response.replys resp = pre ++ r :: post ->
  Forall (fun p => carries (lit "SEARCH") (reply.origin p) = false) pre ->
  carries (lit "SEARCH") (reply.origin r) = true ->
  exists ids,
    IMAPClient.Search c flag = (c', (ids, None))
    /\ Join ids SP = Trim (skipn 6 (reply.origin r)) whitespace
    /\ Forall (fun x => ~ In SP x) ids.
Proof.
  intros HD He Hr Hpre Hc.
  destruct (searchReplys_carries r post Hc) as (ids & S & J & F).
  exists ids. split; [|split; assumption].
  unfold IMAPClient.Search. rewrite HD.
  unfold Response.Error, Response.Replys. rewrite He, Hr.
  rewrite (searchReplys_pass pre _ Hpre), S. reflexivity.
Qed.

Lemma Search_keeps_the_text_witness :
  IMAPClient.Do search_client (lit "SEARCH " ++ lit "ALL") = search_done
  /\ exists ids,
       IMAPClient.Search search_client (lit "ALL") = (fst search_done, (ids, None))
       /\ Join ids SP = lit "1 2 3".
Proof.
  assert (HD : IMAPClient.Do search_client (lit "SEARCH " ++ lit "ALL") =
               (fst search_done, snd search_done))
    by (vm_compute; reflexivity).
  split; [exact HD|].
  destruct (Search_keeps_the_text search_client (fst search_done) (lit "ALL")
              (snd search_done) [] []
              (reply.mk (lit "SEARCH 1 2 3") [] [] [])
              HD eq_refl eq_refl (Forall_nil _) eq_refl)
    as (ids & S & J & _).
  exists ids. split; [exact S|exact J].
Defined.

(** ** [NewClient] *)

Lemma existsb_LF chunk :
  existsb (fun i => Ascii.eqb i LF) chunk = true <-> In LF chunk.
Proof.
  rewrite existsb_exists. split.
  - intros (x & Hx & E). apply Ascii.eqb_eq in E. subst. exact Hx.
  - intros H. exists LF. split; [exact H|reflexivity].
Qed.

Lemma greeting_spec rs : forall b,
  match IMAPClient.greeting rs b with
  | Some (rest, _) =>
      exists pre chunk,
        rs = map inl pre ++ inl chunk :: rest
        /\ Forall (fun p => ~ In LF p) pre /\ In LF chunk
  | None =>
      exists pre,
        Forall (fun p => ~ In LF p) pre
        /\ (rs = map inl pre \/ exists e rest, rs = map inl pre ++ inr e :: rest)
  end.
Proof.
  induction rs as [|[chunk|e] rs IH]; intros b; cbn [IMAPClient.greeting].
  - exists []. split; [constructor|left; reflexivity].
  - destruct (existsb (fun i => Ascii.eqb i LF) chunk) eqn:E.
    + apply existsb_LF in E. exists [], chunk.
      split; [reflexivity|]. split; [constructor|exact E].
    + assert (N : ~ In LF chunk).
      { intros H. apply existsb_LF in H. congruence. }
      specialize (IH (IMAPClient.readInto b chunk)).
      destruct (IMAPClient.greeting rs _) as [[rest b']|].
      * destruct IH as (pre & ch & -> & Hp & Hc).
        exists (chunk :: pre), ch. split; [reflexivity|].
        split; [constructor; assumption|exact Hc].
      * destruct IH as (pre & Hp & [->|(e & rest & ->)]);
          exists (chunk :: pre); (split; [constructor; assumption|]).
        -- left. reflexivity.
        -- right. exists e, rest. reflexivity.
  - exists []. split; [constructor|]. right. exists e, rs. reflexivity.
Qed.

(** X12.  [NewClient] succeeds exactly when a read returns a chunk with a
    line feed before any read fails or the stream ends.  The session then
    starts with its counter at zero and nothing written, and its reads go
    on after that chunk: the chunk is dropped whole, with whatever follows
    the line feed in it.  Otherwise, no chunk read before the failure or
    the end of the stream holds a line feed. *)
Theorem NewClient_spec (k : conn.t) :
  match IMAPClient.NewClient k with
  | Some c =>
      exists pre chunk,
        conn.incoming k =
          map inl pre ++ inl chunk :: conn.incoming (IMAPClient.conn_ c)
        /\ Forall (fun p => ~ In LF p) pre /\ In LF chunk
        /\ IMAPClient.count c = 0
        /\ conn.sent (IMAPClient.conn_ c) = conn.sent k
  | None =>
      exists pre,
        Forall (fun p => ~ In LF p) pre
        /\ (conn.incoming k = map inl pre
            \/ exists e rest, conn.incoming k = map inl pre ++ inr e :: rest)
  end.
Proof.
  unfold IMAPClient.NewClient.
  pose proof (greeting_spec (conn.incoming k) (repeat zero 1024)) as G.
  destruct (IMAPClient.greeting _ _) as [[rest b]|].
  - destruct G as (pre & chunk & E & Hp & Hc). exists pre, chunk.
    cbn. repeat split; assumption.
  - exact G.
Qed.

(** ** Literals, from the parenthesis to the last byte *)

Lemma Feed_type_run ty : forall r more,
  Response.state r = feedReplyType ->
  ~ In ")"%char ty -> ~ In SP ty ->
  Response.Feed r (ty ++ more) =
    Response.Feed
      (Response.setCur
         (reply.mk (reply.origin (Response.cur r) ++ ty)
                   (reply.type_ (Response.cur r) ++ ty)
                   (reply.length_ (Response.cur r))
                   (reply.content (Response.cur r))) r) more.
Proof.
  induction ty as [|c ty IH]; intros r more Hs H1 H2.
  - cbn [app]. rewrite !List.app_nil_r. open_response r. reflexivity.
  - apply not_in_cons in H1, H2. destruct H1 as [N1 H1], H2 as [N2 H2].
    cbn [app Response.Feed]. unfold Response.feedByte. rewrite Hs.
    rewrite (eqb_neq c ")" N1), (eqb_neq c SP N2).
    rewrite IH; [|exact Hs|exact H1|exact H2].
    f_equal. open_response r. unfold Response.setCur. cbn.
    rewrite <- !List.app_assoc. reflexivity.
Qed.

Lemma Feed_length_run s : forall r more,
  Response.state r = feedReplyLength -> ~ In LF s ->
  Response.Feed r (s ++ more) =
    Response.Feed
      (Response.setCur
         (reply.mk (reply.origin (Response.cur r) ++ s)
                   (reply.type_ (Response.cur r))
                   (reply.length_ (Response.cur r) ++ filter isDigit s)
                   (reply.content (Response.cur r))) r) more.
Proof.
  induction s as [|c s IH]; intros r more Hs H.
  - cbn [app filter]. rewrite !List.app_nil_r. open_response r. reflexivity.
  - apply not_in_cons in H. destruct H as [N H].
    cbn [app Response.Feed filter]. unfold Response.feedByte. rewrite Hs.
    rewrite (eqb_neq c LF N).
    destruct (isDigit c); (rewrite IH; [|exact Hs|exact H]);
      f_equal; open_response r; unfold Response.setCur; cbn;
      rewrite <- !List.app_assoc; reflexivity.
Qed.

Lemma decimal_digits m : Forall (fun b => isDigit b = true) (decimal m).
Proof. eapply parseDigits_all_digits, parseDigits_decimal. Qed.

Lemma decimal_not_nil m : decimal m <> [].
Proof.
  destruct m as [|p]; [discriminate|].
  intros E. pose proof (parseDigits_decimal (N.pos p)) as P.
  rewrite E in P. discriminate.
Qed.

(** What [decimal] prints, [Atoi] reads back, within [int]. *)
Lemma Atoi_decimal m : Z.of_N m <= maxInt -> Atoi (decimal m) = Some (Z.of_N m).
Proof.
  intros H. pose proof (decimal_digits m) as D.
  pose proof (parseDigits_decimal m) as P.
  destruct (decimal m) as [|c s] eqn:E; [exact (False_ind _ (decimal_not_nil m E))|].
  inversion D as [|? ? Hc _]; subst.
  destruct (isDigit_not_sign c Hc) as [Hm Hp].
  unfold Atoi. rewrite Hm, Hp, P.
  replace (minInt <=? Z.of_N m) with true
    by (symmetry; apply Z.leb_le; unfold minInt; lia).
  replace (Z.of_N m <=? maxInt) with true
    by (symmetry; apply Z.leb_le; exact H).
  reflexivity.
Qed.

Lemma filter_digits s :
  Forall (fun b => isDigit b = true) s -> filter isDigit s = s.
Proof.
  induction 1 as [|c s Hc _ IH]; cbn; [reflexivity|]. rewrite Hc, IH. reflexivity.
Qed.

Lemma filter_no_digit s :
  Forall (fun c => isDigit c = false /\ c <> LF) s -> filter isDigit s = [].
Proof.
  induction 1 as [|c s [Hc _] _ IH]; cbn; [reflexivity|]. rewrite Hc. exact IH.
Qed.

Lemma token_no_LF s :
  Forall (fun c => isDigit c = false /\ c <> LF) s -> ~ In LF s.
Proof.
  intros H Hin. rewrite Forall_forall in H. destruct (H LF Hin) as [_ N].
  apply N. reflexivity.
Qed.

Lemma digits_no_LF s : Forall (fun b => isDigit b = true) s -> ~ In LF s.
Proof.
  intros H Hin. rewrite Forall_forall in H. specialize (H LF Hin). discriminate.
Qed.

(** X13.  In a reply that has no literal yet, a parenthesis, a type
    keyword, a space, the decimal length of [data] among bytes that are
    neither digits nor line feeds, a line feed and then [data] itself are
    read as one literal: the type is the keyword, the length buffer is the
    decimal length, the content is [data] byte for byte, whatever bytes
    it holds, and the parser is back in the reply state for what
    follows. *)
Theorem Feed_literal
  (r : Response.t) (ty tok1 tok2 data more : bytes) :
  Response.state r = feedReply ->
  reply.type_ (Response.cur r) = [] ->
  reply.length_ (Response.cur r) = [] ->
  reply.content (Response.cur r) = [] ->
  ty <> [] -> ~ In ")"%char ty -> ~ In SP ty ->
  Forall (fun c => isDigit c = false /\ c <> LF) tok1 ->
  Forall (fun c => isDigit c = false /\ c <> LF) tok2 ->
  data <> [] -> len data <= maxInt ->
  let framing := "("%char :: ty ++ SP :: tok1
                 ++ decimal (Z.to_N (len data)) ++ tok2 ++ [LF] in
  Response.Feed r (framing ++ data ++ more) =
    Response.Feed
      (Response.setState feedReply
         (Response.setCur
            (reply.mk (reply.origin (Response.cur r) ++ framing ++ data)
                      ty (decimal (Z.to_N (len data))) data) r)) more.
Proof.
  intros Hs Ht Hl Hc Hty Hpar Hsp H1 H2 Hd Hmax framing.
  set (n := decimal (Z.to_N (len data))) in *.
  assert (Hn : Atoi n = Some (len data)).
  { unfold n. rewrite Atoi_decimal.
    - rewrite Z2N.id; [reflexivity|unfold len; lia].
    - rewrite Z2N.id; [exact Hmax|unfold len; lia]. }
  assert (Hpos : 0 < len data).
  { destruct data; [contradiction|]. unfold len. cbn [List.length]. lia. }
  unfold framing.
  replace (("("%char :: ty ++ SP :: tok1 ++ n ++ tok2 ++ [LF]) ++ data ++ more)
    with ("("%char :: ty ++ SP :: (tok1 ++ n ++ tok2) ++ LF :: data ++ more)
    by (cbn [app]; rewrite <- !List.app_assoc; cbn [app];
        rewrite <- !List.app_assoc; reflexivity).
  cbn [Response.Feed]. unfold Response.feedByte at 1. rewrite Hs.
  change (Ascii.eqb "(" CR) with false. change (Ascii.eqb "(" "(") with true.
  cbn iota.
  rewrite Feed_type_run; [|reflexivity|exact Hpar|exact Hsp].
  cbn [Response.Feed]. unfold Response.feedByte at 1.
  cbn [Response.state Response.setState Response.setCur Response.cur
       reply.type_ reply.addOrigin reply.origin reply.length_ reply.content].
  change (Ascii.eqb SP ")") with false. change (Ascii.eqb SP SP) with true.
  cbn iota. rewrite Ht. cbn [app].
  replace (0 <? len ty) with true
    by (symmetry; apply Z.ltb_lt; destruct ty; [contradiction|];
        unfold len; cbn [List.length]; lia).
  rewrite Feed_length_run;
    [|reflexivity
     |apply not_in_app; [apply token_no_LF, H1
                        |apply not_in_app; [apply digits_no_LF, decimal_digits
                                           |apply token_no_LF, H2]]].
  cbn [Response.Feed]. unfold Response.feedByte at 1.
  cbn [Response.state Response.setState Response.setCur Response.cur
       reply.type_ reply.addOrigin reply.origin reply.length_ reply.content].
  change (Ascii.eqb LF LF) with true. change (isDigit LF) with false.
  cbn iota.
  rewrite !filter_app, (filter_no_digit tok1 H1), (filter_no_digit tok2 H2),
    (filter_digits n (decimal_digits _)), Hl, Hc, List.app_nil_r.
  cbn [app].
  match goal with
  | |- Response.Feed ?r0 (data ++ more) = _ =>
      destruct (Feed_literal_exact r0 (len data) data more) as [E _];
        [reflexivity|reflexivity|exact Hn|exact Hpos|reflexivity|]
  end.
  rewrite E. f_equal. clearbody n. clear - Ht Hl Hc.
  open_response r. subst.
  cbv beta iota delta
    [withLiteral Response.setState Response.setCur Response.id
     Response.status Response.err Response.replys Response.buf
     Response.state Response.parenthesisCount Response.cur
     reply.origin reply.type_ reply.length_ reply.content
     reply.addOrigin reply.addType reply.addLength reply.addContent].
  rewrite <- !List.app_assoc. cbn [app].
  rewrite <- !List.app_assoc. reflexivity.
Qed.

Lemma Feed_literal_witness :
  let r := fst (Response.Feed Response.NewResponse (lit "* 4 FETCH ")) in
  Response.state r = feedReply
  /\ Response.Feed r
       (("("%char :: lit "RFC822.TEXT" ++ SP :: lit "{"
         ++ decimal (Z.to_N (len ([CR; LF] ++ lit ")" ++ [CR; LF]))) ++ (lit "}" ++ [CR]) ++ [LF])
        ++ ([CR; LF] ++ lit ")" ++ [CR; LF]) ++ lit ")") =
     Response.Feed
       (Response.setState feedReply
          (Response.setCur
             (reply.mk (lit "4 FETCH (RFC822.TEXT {5}" ++ CRLF ++ CRLF
                        ++ lit ")" ++ CRLF)
                       (lit "RFC822.TEXT") (lit "5")
                       (CRLF ++ lit ")" ++ CRLF)) r)) (lit ")").
Proof.
  cbv zeta.
  assert (Hs : Response.state
                 (fst (Response.Feed Response.NewResponse (lit "* 4 FETCH ")))
               = feedReply) by (vm_compute; reflexivity).
  split; [exact Hs|].
  refine (Feed_literal (fst (Response.Feed Response.NewResponse (lit "* 4 FETCH ")))
            (lit "RFC822.TEXT") (lit "{") (lit "}" ++ [CR])
            ([CR; LF] ++ lit ")" ++ [CR; LF]) (lit ")")
            Hs eq_refl eq_refl eq_refl _ _ _ _ _ _ _).
  - discriminate.
  - cbn. intros H. repeat (destruct H as [H|H]; [discriminate|]). exact H.
  - cbn. intros H. repeat (destruct H as [H|H]; [discriminate|]). exact H.
  - repeat constructor; discriminate.
  - repeat constructor; discriminate.
  - discriminate.
  - vm_compute. discriminate.
Defined.

(** ** An untagged line without text *)

Lemma Feed_star_spaces k : forall r more,
  Response.state r = feedStar ->
  Response.Feed r (repeat SP k ++ more) = Response.Feed r more.
Proof.
  induction k as [|k IH]; intros r more Hs; [reflexivity|].
  cbn [repeat app Response.Feed]. unfold Response.feedByte. rewrite Hs.
  change (negb (Ascii.eqb SP SP)) with false. cbn iota. apply IH, Hs.
Qed.

(** X14.  The end of line does not close an untagged line that has no
    text: after the marker and any number of spaces, the carriage return
    is taken as the first byte of a new reply and the line feed as its
    second, so that the origin is the end of line itself, no reply is
    recorded, nothing is reported, and the parser is in the middle of a
    reply. *)
Theorem Feed_empty_untagged (r : Response.t) (k : nat) :
  Response.state r = feedInit ->
  Response.Feed r ("*"%char :: repeat SP k ++ CRLF) =
    (Response.setCur (reply.mk CRLF [] [] []) (Response.setState feedReply r),
     (false, None)).
Proof.
  intros Hs. cbn [Response.Feed]. unfold Response.feedByte at 1. rewrite Hs.
  change (Ascii.eqb "*" "*") with true. cbn iota.
  rewrite Feed_star_spaces by reflexivity.
  unfold CRLF. cbn [Response.Feed]. unfold Response.feedByte at 1.
  cbn [Response.state Response.setState].
  change (negb (Ascii.eqb CR SP)) with true. cbn iota.
  unfold Response.feedByte.
  cbn [Response.state Response.setState Response.setCur].
  change (Ascii.eqb LF CR) with false. change (Ascii.eqb LF "(") with false.
  cbn iota. destruct r; reflexivity.
Qed.

Lemma Feed_empty_untagged_witness :
  Response.state Response.NewResponse = feedInit
  /\ Response.replys
       (fst (Response.Feed Response.NewResponse
               ("*"%char :: repeat SP 1 ++ CRLF))) = []
  /\ Response.state
       (fst (Response.Feed Response.NewResponse
               ("*"%char :: repeat SP 1 ++ CRLF))) = feedReply.
Proof.
  assert (Hs : Response.state Response.NewResponse = feedInit) by reflexivity.
  split; [exact Hs|].
  rewrite (Feed_empty_untagged Response.NewResponse 1 Hs).
  split; reflexivity.
Defined.

(** ** The commands that return an error only *)

(** X15.  [Login], [StoreFlag] and [Logout] each advance the counter by
    one and write one line, the tag and then the words LOGIN user password,
    STORE id FLAGS flag, or LOGOUT, with their arguments as they are given;
    and they return nil only when [Do] has read a whole response whose
    status text starts with OK and a space. *)
Theorem commands_write_and_report (c : IMAPClient.t) (user password id flag : bytes) :
  let n := wrapInt (IMAPClient.count c + 1) in
  let ok (cmd : bytes) (res : IMAPClient.t * option error) :=
    conn.sent (IMAPClient.conn_ (fst res)) =
      conn.sent (IMAPClient.conn_ c) ++ [IMAPClient.tag n ++ [SP] ++ cmd ++ CRLF]
    /\ IMAPClient.count (fst res) = n
    /\ (snd res = None ->
        Response.state (snd (IMAPClient.Do c cmd)) = feedFinished
        /\ firstn 3 (Response.status (snd (IMAPClient.Do c cmd))) = lit "OK ") in
  ok (lit "LOGIN " ++ user ++ [SP] ++ password)
     (IMAPClient.Login c user password)
  /\ ok (lit "STORE " ++ id ++ lit " FLAGS " ++ flag)
        (IMAPClient.StoreFlag c id flag)
  /\ ok (lit "LOGOUT") (IMAPClient.Logout c).
Proof.
  cbv zeta.
  assert (G : forall cmd,
             conn.sent (IMAPClient.conn_ (fst (IMAPClient.Do c cmd))) =
               conn.sent (IMAPClient.conn_ c)
               ++ [IMAPClient.tag (wrapInt (IMAPClient.count c + 1))
                   ++ [SP] ++ cmd ++ CRLF]
             /\ IMAPClient.count (fst (IMAPClient.Do c cmd)) =
                wrapInt (IMAPClient.count c + 1)
             /\ (Response.err (snd (IMAPClient.Do c cmd)) = None ->
                 Response.state (snd (IMAPClient.Do c cmd)) = feedFinished
                 /\ firstn 3 (Response.status (snd (IMAPClient.Do c cmd)))
                    = lit "OK ")).
  { intros cmd. destruct (Do_sent c cmd) as [S C].
    split; [exact S|]. split; [exact C|apply Do_success_aux]. }
  unfold IMAPClient.Login, IMAPClient.StoreFlag, IMAPClient.Logout.
  split; [|split];
    match goal with
    | |- context [IMAPClient.Do c ?cmd] =>
        specialize (G cmd); destruct (IMAPClient.Do c cmd) as [c' resp];
        exact G
    end.
Qed.

Lemma commands_write_and_report_witness :
  conn.sent (IMAPClient.conn_
    (fst (IMAPClient.Login two_command_client (lit "u") (lit "p")))) =
  [lit "a001 LOGIN u p" ++ CRLF]
  /\ (snd (IMAPClient.Login two_command_client (lit "u") (lit "p")) = None ->
      firstn 3 (Response.status
        (snd (IMAPClient.Do two_command_client
               (lit "LOGIN " ++ lit "u" ++ [SP] ++ lit "p")))) = lit "OK ").
Proof.
  destruct (commands_write_and_report two_command_client (lit "u") (lit "p")
              (lit "4") Seen) as [(S & _ & K) _].
  split; [exact S|]. intros He. exact (proj2 (K He)).
Defined.

(** ** More on [GetMessage] *)

Section GetMessageMore.

Variable MIMEHeader : Type.
Variable ReadMIMEHeader : bytes -> MIMEHeader + error.

(** X16.  When the fetch of the headers ends without error with at least
    one reply, the content of its first reply reads as a header, and the
    fetch of the text, issued next, ends without error, [GetMessage]
    returns that header with, as body, the content of the first reply of
    the second response, whatever the origins of the two replies are; and
    it panics on the index when the second response has no reply. *)
Theorem GetMessage_two_fetches
  (c c1 c2 : IMAPClient.t) (id : bytes) (r1 r2 : Response.t)
  (h : reply.t) (hs : list reply.t) (hd : MIMEHeader) :
  IMAPClient.Do c (lit "FETCH " ++ id ++ [SP] ++ RFC822Header) = (c1, r1) ->
  Response.err r1 = None ->
  Response.replys r1 = h :: hs ->
  ReadMIMEHeader (reply.content h) = inl hd ->
  IMAPClient.Do c1 (lit "FETCH " ++ id ++ [SP] ++ RFC822Text) = (c2, r2) ->
  Response.err r2 = None ->
  IMAPClient.GetMessage MIMEHeader ReadMIMEHeader c id =
    match Response.replys r2 with
    | b :: _ =>
        Return (c2, (Some (IMAPClient.mkMessage MIMEHeader hd (reply.content b)),
                     None))
    | [] => Panic "index out of range [0] with length 0"
    end.
Proof.
  intros H1 E1 R1 Hh H2 E2.
  unfold IMAPClient.GetMessage. rewrite H1.
  unfold Response.Error, Response.Replys. rewrite E1, R1.
  cbn [index0 bind]. rewrite Hh, H2, E2.
  destruct (Response.replys r2); reflexivity.
Qed.

End GetMessageMore.

Lemma GetMessage_two_fetches_witness :
  IMAPClient.Do message_client (lit "FETCH " ++ lit "4" ++ [SP] ++ RFC822Header)
    = message_header_done
  /\ IMAPClient.Do (fst message_header_done)
       (lit "FETCH " ++ lit "4" ++ [SP] ++ RFC822Text) = message_body_done
  /\ IMAPClient.GetMessage bytes (fun b => inl b) message_client (lit "4") =
       Return (fst message_body_done,
               (Some (IMAPClient.mkMessage bytes
                        (lit "Subject: hi" ++ [LF]) (lit "hello")), None)).
Proof.
  assert (H1 : IMAPClient.Do message_client
                 (lit "FETCH " ++ lit "4" ++ [SP] ++ RFC822Header) =
               (fst message_header_done, snd message_header_done))
    by (vm_compute; reflexivity).
  assert (H2 : IMAPClient.Do (fst message_header_done)
                 (lit "FETCH " ++ lit "4" ++ [SP] ++ RFC822Text) =
               (fst message_body_done, snd message_body_done))
    by (vm_compute; reflexivity).
  split; [exact H1|]. split; [exact H2|].
  exact (GetMessage_two_fetches bytes (fun b => inl b) message_client
           (fst message_header_done) (fst message_body_done) (lit "4")
           (snd message_header_done) (snd message_body_done)
           (reply.mk (lit "4 FETCH (RFC822.HEADER {12}" ++ CRLF
                      ++ lit "Subject: hi" ++ [LF] ++ lit ")")
                     (lit "RFC822.HEADER") (lit "12")
                     (lit "Subject: hi" ++ [LF]))
           [] (lit "Subject: hi" ++ [LF])
           H1 eq_refl eq_refl eq_refl H2 eq_refl).
Defined.

(** ** The read loop of [Do] on any bytes *)

(** X17.  The Response that [Do] returns depends on the bytes read and
    not on how the reads cut them: a connection whose reads return the
    chunks one by one and a connection whose single read returns their
    concatenation give the same Response, whether the bytes hold a whole
    response, a framing error or only the beginning of a response (the
    stream then ends, and both carry the error of the end of the
    stream). *)
Theorem Do_chunk_independent
  (c1 c2 : IMAPClient.t) (cmd1 cmd2 : bytes) (chunks : list bytes) :
  conn.outcomes (IMAPClient.conn_ c1) = conn.outcomes (IMAPClient.conn_ c2) ->
  conn.incoming (IMAPClient.conn_ c1) = map inl chunks ->
  conn.incoming (IMAPClient.conn_ c2) = [inl (List.concat chunks)] ->
  snd (IMAPClient.Do c1 cmd1) = snd (IMAPClient.Do c2 cmd2).
Proof.
  intros Ho H1 H2. unfold IMAPClient.Do, conn.Write. rewrite Ho.
  destruct (conn.outcomes (IMAPClient.conn_ c2)) as [|[e|] rest];
    cbn [conn.incoming snd]; try reflexivity; rewrite H1, H2;
    pose proof (pump_concat chunks (IMAPClient.buf c1) (IMAPClient.buf c2)
                  Response.NewResponse) as P;
    destruct (IMAPClient.pump (map inl chunks) _ _) as [[rs1 b1] ret1];
    destruct (IMAPClient.pump [inl (List.concat chunks)] _ _)
      as [[rs2 b2] ret2];
    exact P.
Qed.

Lemma Do_chunk_independent_witness :
  snd (IMAPClient.Do fetch_client (lit "FETCH 4 RFC822.TEXT")) =
  snd (IMAPClient.Do
         (IMAPClient.mk (conn.mk [inl (List.concat fetch_chunks)] [] []) 7 [])
         (lit "NOOP")).
Proof.
  exact (Do_chunk_independent fetch_client
           (IMAPClient.mk (conn.mk [inl (List.concat fetch_chunks)] [] []) 7 [])
           (lit "FETCH 4 RFC822.TEXT") (lit "NOOP") fetch_chunks
           eq_refl eq_refl eq_refl).
Defined.

(** ** The length token, in general *)

(** C4, as stated, fails, in three ways.  With a length token without
    digit, [Feed] fails with the error of the invalid length, but the first
    byte after the line feed has been captured into the content of the
    reply.  With a length token that is not a number but holds a digit,
    there is no error at all: the digit is the length, the literal is read
    and the response ends.  And with a token without digit that follows an
    earlier literal of the same reply, there is no error either: the digits
    of the earlier literal are still in the length buffer. *)
Lemma Feed_non_numeric_length :
  (let '(r, ret) := Response.Feed Response.NewResponse bad_length_input in
   ret = (false, Some invalidLength)
   /\ reply.content (Response.cur r) = lit "h"
   /\ ~ (reply.content (Response.cur r) = []))
  /\ (let '(r, ret) := Response.Feed Response.NewResponse mixed_length_input in
      ret = (true, None)
      /\ map reply.length_ (Response.replys r) = [lit "1"]
      /\ map reply.content (Response.replys r) = [lit "h"])
  /\ (let '(r, ret) := Response.Feed Response.NewResponse stale_length_input in
      ret = (false, None)
      /\ Response.state r = feedReplyContent
      /\ reply.length_ (Response.cur r) = lit "3"
      /\ Response.replys r = []).
Proof.
  vm_compute. repeat split; discriminate.
Qed.

Lemma filter_all_digits s : Forall (fun b => isDigit b = true) (filter isDigit s).
Proof.
  apply Forall_forall. intros x H. apply filter_In in H. apply H.
Qed.

(** The parser after a length token, its line feed and one more byte. *)
Lemma Feed_length_then_byte r tok b rest :
  Response.state r = feedReplyLength -> ~ In LF tok ->
  Response.Feed r (tok ++ LF :: b :: rest) =
    match Atoi (reply.length_ (Response.cur r) ++ filter isDigit tok) with
    | None =>
        (withLiteral [b]
           (Response.setState feedReplyContent (withOrigin [LF] (withLength tok r))),
         (false, Some invalidLength))
    | Some n =>
        if len (reply.content (Response.cur r)) + 1 =? n
        then Response.Feed
               (Response.setState feedReply
                  (withLiteral [b]
                     (Response.setState feedReplyContent
                        (withOrigin [LF] (withLength tok r))))) rest
        else Response.Feed
               (withLiteral [b]
                  (Response.setState feedReplyContent
                     (withOrigin [LF] (withLength tok r)))) rest
    end.
Proof.
  intros Hs Hlf. rewrite (Feed_length_run tok r _ Hs Hlf).
  fold (withLength tok r).
  cbn [Response.Feed]. unfold Response.feedByte at 1.
  replace (Response.state (withLength tok r)) with feedReplyLength
    by (symmetry; exact Hs).
  change (Ascii.eqb LF LF) with true. change (isDigit LF) with false.
  cbn iota.
  change (Response.setState feedReplyContent
            (Response.setCur (reply.addOrigin LF (Response.cur (withLength tok r)))
               (withLength tok r)))
    with (Response.setState feedReplyContent (withOrigin [LF] (withLength tok r))).
  rewrite feedByte_content by reflexivity.
  change (reply.length_
            (Response.cur
               (Response.setState feedReplyContent
                  (withOrigin [LF] (withLength tok r)))))
    with (reply.length_ (Response.cur r) ++ filter isDigit tok).
  change (reply.content
            (Response.cur
               (Response.setState feedReplyContent
                  (withOrigin [LF] (withLength tok r)))))
    with (reply.content (Response.cur r)).
  destruct (Atoi _) as [n|]; [|reflexivity].
  destruct (_ =? _); reflexivity.
Qed.

(** C4, amended.  The length of a literal is read from the length buffer
    of the reply, which holds the decimal digits, and only them, met
    between the type keyword and the line feed, after the digits that an
    earlier literal of the same reply has left there.  The first byte fed
    after the line feed makes [Feed] fail with the error of the invalid
    length exactly when this buffer does not parse as an [int], that is,
    when it is empty or holds a number above the largest [int].  In that
    case this one byte has gone to the origin and to the content of the
    reply in progress before the test, the rest of the input is not read
    and nothing else is captured, the parser stays in the content state
    and the list of replies is as it was. *)
Theorem Feed_length_unparsable
  (r : Response.t) (tok : bytes) (b : byte) (rest : bytes) :
  reachable r -> Response.state r = feedReplyLength -> ~ In LF tok ->
  let digits := reply.length_ (Response.cur r) ++ filter isDigit tok in
  let r' := fst (Response.Feed r (tok ++ LF :: b :: rest)) in
  (snd (Response.Feed r (tok ++ [LF; b])) = (false, Some invalidLength)
   <-> reply.Length (Response.cur (withLength tok r)) = None)
  /\ (reply.Length (Response.cur (withLength tok r)) = None
      <-> digits = []
          \/ exists v, parseDigits 0 digits = Some v /\ maxInt < v)
  /\ (reply.Length (Response.cur (withLength tok r)) = None ->
      snd (Response.Feed r (tok ++ LF :: b :: rest)) =
        (false, Some invalidLength)
      /\ reply.content (Response.cur r') = reply.content (Response.cur r) ++ [b]
      /\ reply.origin (Response.cur r') =
           reply.origin (Response.cur r) ++ tok ++ [LF; b]
      /\ reply.length_ (Response.cur r') = digits
      /\ Response.state r' = feedReplyContent
      /\ Response.replys r' = Response.replys r).
Proof.
  intros Hr Hs Hlf. cbv zeta.
  change (reply.Length (Response.cur (withLength tok r)))
    with (Atoi (reply.length_ (Response.cur r) ++ filter isDigit tok)).
  split; [|split].
  - change [LF; b] with (LF :: b :: []).
    rewrite (Feed_length_then_byte r tok b [] Hs Hlf).
    destruct (Atoi _) as [n|].
    + destruct (_ =? _); cbn; split; discriminate.
    + cbn. split; reflexivity.
  - apply Atoi_digits. apply Forall_app. split; [|apply filter_all_digits].
    apply reachable_reply_inv in Hr. destruct Hr as [_ HC].
    rewrite Hs in HC. apply HC.
  - intros Hn. rewrite (Feed_length_then_byte r tok b rest Hs Hlf), Hn.
    cbn [fst snd]. split; [reflexivity|].
    open_response r. cbn. rewrite <- !List.app_assoc. cbn.
    repeat split.
Qed.

Lemma Feed_length_unparsable_witness :
  let r := fst (Response.Feed Response.NewResponse (lit "* 1 FETCH (BODY ")) in
  let r' := fst (Response.Feed r (lit "{abc}" ++ [CR] ++ LF :: lit "hello)")) in
  reachable r
  /\ Response.state r = feedReplyLength
  /\ ~ In LF (lit "{abc}" ++ [CR])
  /\ snd (Response.Feed r (lit "{abc}" ++ [CR] ++ LF :: lit "hello)")) =
       (false, Some invalidLength)
  /\ reply.content (Response.cur r') = lit "h"
  /\ Response.replys r' = [].
Proof.
  cbv zeta.
  assert (Hr : reachable (fst (Response.Feed Response.NewResponse
                                 (lit "* 1 FETCH (BODY "))))
    by (apply reach_feed, reach_new).
  assert (Hs : Response.state
                 (fst (Response.Feed Response.NewResponse
                         (lit "* 1 FETCH (BODY "))) = feedReplyLength)
    by (vm_compute; reflexivity).
  assert (Hlf : ~ In LF (lit "{abc}" ++ [CR])).
  { cbn. intros H. repeat (destruct H as [H|H]; [discriminate|]). exact H. }
  destruct (Feed_length_unparsable _ _ "h"%char (lit "ello)") Hr Hs Hlf)
    as (_ & _ & K).
  destruct (K eq_refl) as (H1 & H2 & _ & _ & _ & H6).
  split; [exact Hr|]. split; [exact Hs|]. split; [exact Hlf|].
  split; [exact H1|]. split; [exact H2|exact H6].
Defined.
